(** * chess-api: the session and broadcast hub of [main.go]

    A shallow embedding of the two relay variants found in [main.go]
    (the broadcast variant, whose move handler calls [MoveStr] and sends
    the new position to every connected client, and the opponent-only
    variant, whose move handler scans [ValidMoves] and notifies the
    opponent), together with the properties of the hub that follow
    from the code.

    The chess rules engine (github.com/notnil/chess), encoding/json,
    the file system and the websocket transport are collaborators of
    the hub: the engine and the JSON codec are interfaces (type classes)
    whose operations the hub calls, the file and the transport are
    fields of the explicit world state that every handler threads. *)

From Stdlib Require Import Ascii String.
From stdpp Require Import base gmap list strings.

Local Open Scope Z_scope.

(** ** Go errors and fallible results *)

(** A Go [error] is modelled by its message. *)
Definition error := string.

Inductive result (A : Type) : Type :=
| Ok (a : A)
| Err (e : error).
Arguments Ok {A} a.
Arguments Err {A} e.

#[global] Instance result_bind : MBind result := λ A B k r,
  match r with
  | Ok a => k a
  | Err e => Err e
  end.

#[global] Instance result_ret : MRet result := λ A a, Ok a.

(** ** The rules engine, as the hub sees it *)

Inductive Color := White | Black.
Inductive PieceType := King | Queen | Rook | Bishop | Knight | Pawn.

(** [chess.Piece]: [NoPiece], or the piece [chess.NewPiece(pt, c)].  The
    library's [NoColor] and [NoPieceType] are the colour and the type of
    [NoPiece] only, which the hub never asks for. *)
Inductive Piece :=
| NoPiece
| NewPiece (pt : PieceType) (c : Color).

Inductive Outcome := NoOutcome | WhiteWon | BlackWon | Draw.

Inductive Method :=
| NoMethod | Checkmate | Resignation | DrawOffer | Stalemate
| ThreefoldRepetition | FivefoldRepetition | FiftyMoveRule
| SeventyFiveMoveRule | InsufficientMaterial.

Inductive Notation_ := UCINotation | LongAlgebraicNotation | AlgebraicNotation.

(** [chess.Square] is an int8; [A1] is 0 and [H8] is 63. *)
Definition Square := Z.
Definition A1 : Square := 0.
Definition H8 : Square := 63.

#[global] Instance Color_eq_dec : EqDecision Color.
Proof. solve_decision. Defined.
#[global] Instance PieceType_eq_dec : EqDecision PieceType.
Proof. solve_decision. Defined.
#[global] Instance Piece_eq_dec : EqDecision Piece.
Proof. solve_decision. Defined.
#[global] Instance Outcome_eq_dec : EqDecision Outcome.
Proof. solve_decision. Defined.
#[global] Instance Method_eq_dec : EqDecision Method.
Proof. solve_decision. Defined.

Definition PieceType_to_nat (pt : PieceType) : nat :=
  match pt with
  | King => 1 | Queen => 2 | Rook => 3 | Bishop => 4 | Knight => 5 | Pawn => 6
  end%nat.

Definition PieceType_of_nat (n : nat) : option PieceType :=
  match n with
  | 1 => Some King | 2 => Some Queen | 3 => Some Rook | 4 => Some Bishop
  | 5 => Some Knight | 6 => Some Pawn | _ => None
  end%nat.

#[global] Program Instance PieceType_countable : Countable PieceType :=
  inj_countable PieceType_to_nat PieceType_of_nat _.
Next Obligation. by intros []. Qed.

(** The operations of github.com/notnil/chess that [main.go] calls.  A
    method that mutates its receiver returns the receiver after the call
    next to the error it reports. *)
Class RulesEngine := {
  ChessGame : Type;
  ChessPosition : Type;
  ChessBoard : Type;
  ChessMove : Type;
  GameOption : Type;
  FEN : string → result GameOption;
  UseNotation : Notation_ → GameOption;
  NewGame : list GameOption → ChessGame;
  Game_Position : ChessGame → ChessPosition;
  Game_Positions : ChessGame → list ChessPosition;
  Game_ValidMoves : ChessGame → list ChessMove;
  Game_Move : ChessGame → ChessMove → ChessGame * option error;
  Game_MoveStr : ChessGame → string → ChessGame * option error;
  Game_Outcome : ChessGame → Outcome;
  Game_Method : ChessGame → Method;
  Game_MarshalText : ChessGame → result string;
  Game_UnmarshalText : ChessGame → string → ChessGame * option error;
  Position_Turn : ChessPosition → Color;
  Position_Board : ChessPosition → ChessBoard;
  Position_String : ChessPosition → string;
  Board_Piece : ChessBoard → Square → Piece;
  Move_String : ChessMove → string;
  Piece_String : Piece → string;
}.

(** ** Wire and storage records *)

Record OutcomeMessage := {
  om_GameID : string; om_Outcome : string; om_Winner : string }.

Record MoveMessage := {
  mm_GameID : string; mm_Color : string; mm_Move : string }.

(** [MoveAnswer] of the broadcast variant carries the position ([Fen]). *)
Record MoveAnswerFen := { maf_GameID : string; maf_Fen : string }.

(** [MoveAnswer] of the opponent-only variant carries the move. *)
Record MoveAnswerMove := { mam_GameID : string; mam_Move : string }.

Record JoinMessage := { jm_GameID : string }.

Record AgainstMessage := { am_ID : string; am_Color : string }.

Record WebsocketMessage := { ws_Type : string; ws_Payload : string }.

Record HelloMessage := { hm_ID : string }.

Record PossibleMovesMessage := { pm_GameID : string; pm_Moves : list string }.

Record StoredGame := {
  PGNStr : string; sg_WhitePlayerId : string; sg_BlackPlayerId : string }.

Record CapturedPiecesMessage := {
  cp_GameID : string; cp_White : list string; cp_Black : list string }.

Record CreateGameRequest := {
  Player1 : string; Player2 : string; PreferredColor : string }.

(** The values [main.go] hands to [json.Marshal]. *)
Inductive Marshalled :=
| VOutcome (m : OutcomeMessage)
| VMoveAnswerFen (m : MoveAnswerFen)
| VMoveAnswerMove (m : MoveAnswerMove)
| VAgainst (m : AgainstMessage)
| VWebsocket (m : WebsocketMessage)
| VHello (m : HelloMessage)
| VPossibleMoves (m : PossibleMovesMessage)
| VCapturedPieces (m : CapturedPiecesMessage)
| VStoredGames (m : gmap string StoredGame).

(** encoding/json, at the types [main.go] uses it. *)
Class Json := {
  Marshal : Marshalled → result string;
  Unmarshal_WebsocketMessage : string → result WebsocketMessage;
  Unmarshal_MoveMessage : string → result MoveMessage;
  Unmarshal_JoinMessage : string → result JoinMessage;
  Unmarshal_StoredGames : string → result (gmap string StoredGame);
}.

(** Go leaves the order in which [range] visits a map unspecified: the
    order is a parameter of the model.  So is what a failing
    [os.WriteFile] leaves behind: it opens the file with [O_TRUNC] and
    then writes, so that the file is untouched when the open fails
    ([None]) and holds what had been written of the data, possibly
    nothing, when the write or the close fails ([Some part]). *)
Class Runtime := {
  range : ∀ {K} `{Countable K} {V}, gmap K V → list (K * V);
  failed_write : string → option string;
}.

(** Whatever the order, [range] visits every entry of the map once. *)
Class RuntimeOk `{Runtime} : Prop := {
  range_perm : ∀ {K} `{Countable K} {V} (m : gmap K V), range m ≡ₚ map_to_list m;
}.

(** ** The state of the hub and of its surroundings *)

(** [Conn] stands for the [*websocket.Conn] of the client. *)
Record Client := { ID : string; Conn : nat }.

Record Game `{RulesEngine} := {
  WhitePlayerId : string;
  BlackPlayerId : string;
  Game_ : ChessGame;
}.

(** The two package variables [games] and [connectedClients], and what
    the handlers reach outside the process: the file games.json, the
    websocket connections and the standard output.  [saveCalls] counts
    the calls of [SaveGames]. *)
Record World `{RulesEngine} := {
  games : gmap string Game;
  connectedClients : list Client;
  games_json : option string;
  disk_fails : bool;
  broken : gset nat;
  sent : list (nat * string);
  closed : list nat;
  stdout : list string;
  saveCalls : nat;
}.

Section Hub.
Context `{Eng : RulesEngine} `{Js : Json} `{Rt : Runtime}.

Definition set_games (f : gmap string Game → gmap string Game) (w : World) : World :=
  {| games := f (games w); connectedClients := connectedClients w;
     games_json := games_json w; disk_fails := disk_fails w;
     broken := broken w; sent := sent w; closed := closed w;
     stdout := stdout w; saveCalls := saveCalls w |}.

Definition set_connectedClients (f : list Client → list Client) (w : World) : World :=
  {| games := games w; connectedClients := f (connectedClients w);
     games_json := games_json w; disk_fails := disk_fails w;
     broken := broken w; sent := sent w; closed := closed w;
     stdout := stdout w; saveCalls := saveCalls w |}.

Definition set_games_json (data : string) (w : World) : World :=
  {| games := games w; connectedClients := connectedClients w;
     games_json := Some data; disk_fails := disk_fails w;
     broken := broken w; sent := sent w; closed := closed w;
     stdout := stdout w; saveCalls := saveCalls w |}.

Definition add_sent (conn : nat) (data : string) (w : World) : World :=
  {| games := games w; connectedClients := connectedClients w;
     games_json := games_json w; disk_fails := disk_fails w;
     broken := broken w; sent := sent w ++ [(conn, data)]; closed := closed w;
     stdout := stdout w; saveCalls := saveCalls w |}.

Definition add_closed (conn : nat) (w : World) : World :=
  {| games := games w; connectedClients := connectedClients w;
     games_json := games_json w; disk_fails := disk_fails w;
     broken := broken w; sent := sent w; closed := closed w ++ [conn];
     stdout := stdout w; saveCalls := saveCalls w |}.

Definition add_stdout (line : string) (w : World) : World :=
  {| games := games w; connectedClients := connectedClients w;
     games_json := games_json w; disk_fails := disk_fails w;
     broken := broken w; sent := sent w; closed := closed w;
     stdout := stdout w ++ [line]; saveCalls := saveCalls w |}.

Definition count_save (w : World) : World :=
  {| games := games w; connectedClients := connectedClients w;
     games_json := games_json w; disk_fails := disk_fails w;
     broken := broken w; sent := sent w; closed := closed w;
     stdout := stdout w; saveCalls := S (saveCalls w) |}.

(** A handler: it reads and changes the world and returns a value or an
    error.  What it changed before an error stays changed. *)
Definition M (A : Type) : Type := World → result A * World.

#[global] Instance M_ret : MRet M := λ A a w, (Ok a, w).

#[global] Instance M_bind : MBind M := λ A B k m w,
  match m w with
  | (Ok a, w') => k a w'
  | (Err e, w') => (Err e, w')
  end.

Definition lift {A} (r : result A) : M A := λ w, (r, w).
Definition fail {A} (e : error) : M A := λ w, (Err e, w).
Definition modify (f : World → World) : M unit := λ w, (Ok (), f w).
Definition gets {A} (f : World → A) : M A := λ w, (Ok (f w), w).

(** [conn.WriteMessage(websocket.TextMessage, data)] *)
Definition WriteMessage (conn : nat) (data : string) : M unit := λ w,
  if decide (conn ∈ broken w) then (Err "websocket: write failed", w)
  else (Ok (), add_sent conn data w).

(** [fmt.Println(err)] *)
Definition Println (e : error) : M unit := modify (add_stdout e).

(** [os.WriteFile("games.json", data, 0644)].  The file is truncated
    when it is opened, before anything is written: a call that fails
    leaves what [failed_write] says, the old content only if the open
    itself failed. *)
Definition WriteFile (data : string) : M unit := λ w,
  if disk_fails w then
    (Err "open games.json: write failed",
     match failed_write data with
     | Some part => set_games_json part w
     | None => w
     end)
  else (Ok (), set_games_json data w).

(** [os.ReadFile("games.json")] *)
Definition ReadFile : M string := λ w,
  match games_json w with
  | Some data => (Ok data, w)
  | None => (Err "open games.json: no such file or directory", w)
  end.

(** [games[id]], with the [ok] flag as an option. *)
Definition lookup_game (id : string) : M (option Game) := gets (λ w, games w !! id).

(** The game behind the pointer [games[id]] after a method has mutated
    its [*chess.Game]. *)
Definition store_game (id : string) (game : Game) : M unit :=
  modify (set_games (λ gs, <[id := game]> gs)).

Definition with_chess (game : Game) (g : ChessGame) : Game :=
  {| WhitePlayerId := WhitePlayerId game; BlackPlayerId := BlackPlayerId game;
     Game_ := g |}.

(** The two calls of [json.Marshal] that wrap a payload into the wire
    envelope: the payload is encoded, then embedded as a string. *)
Definition encode_envelope (type : string) (payload : Marshalled) : result string :=
  data ← Marshal payload;
  Marshal (VWebsocket {| ws_Type := type; ws_Payload := data |}).

(** [err = f(); if err != nil { ... }] where the error does not return *)
Definition catch (m : M unit) : M (option error) := λ w,
  match m w with
  | (Ok _, w') => (Ok None, w')
  | (Err e, w') => (Ok (Some e), w')
  end.

(** *** Functions that the two variants share word for word *)

Definition GenerateAgainstMessage (game : Game) (client : Client) : result string :=
  againstMsg ←
    (if decide (WhitePlayerId game = ID client) then
       Ok {| am_ID := BlackPlayerId game; am_Color := "b" |}
     else if decide (BlackPlayerId game = ID client) then
       Ok {| am_ID := WhitePlayerId game; am_Color := "w" |}
     else Err "Player not in game");
  encode_envelope "against" (VAgainst againstMsg).

(** The loop of [SaveGames] over [games]; [stored] is the map built so
    far. *)
Fixpoint SaveGames_loop (entries : list (string * Game))
    (stored : gmap string StoredGame) : result (gmap string StoredGame) :=
  match entries with
  | [] => Ok stored
  | (id, game) :: rest =>
      pgn ← Game_MarshalText (Game_ game);
      let storedGame :=
        {| PGNStr := pgn; sg_WhitePlayerId := WhitePlayerId game;
           sg_BlackPlayerId := BlackPlayerId game |} in
      SaveGames_loop rest (<[id := storedGame]> stored)
  end.

Definition SaveGames : M unit :=
  modify count_save;;
  gs ← gets games;
  stored ← lift (SaveGames_loop (range gs) ∅);
  data ← lift (Marshal (VStoredGames stored));
  WriteFile data.

(** The loop of [LoadGames] over the decoded file.  The variants differ
    in the notation they give to [chess.NewGame] and in nothing else. *)
Fixpoint LoadGames_loop (notation : Notation_)
    (entries : list (string * StoredGame)) : M unit :=
  match entries with
  | [] => mret ()
  | (id, storedGame) :: rest =>
      let game := NewGame [UseNotation notation] in
      let '(game, err) := Game_UnmarshalText game (PGNStr storedGame) in
      match err with
      | Some e => fail e
      | None =>
          store_game id
            {| Game_ := game; WhitePlayerId := sg_WhitePlayerId storedGame;
               BlackPlayerId := sg_BlackPlayerId storedGame |};;
          LoadGames_loop notation rest
      end
  end.

Definition LoadGames_with (notation : Notation_) : M unit :=
  data ← ReadFile;
  storedGames ← lift (Unmarshal_StoredGames data);
  modify (set_games (λ _, ∅));;
  LoadGames_loop notation (range storedGames).

(** The deferred function of [WsHandler]: the first entry of
    [connectedClients] that carries the identity is cut out, then the
    connection is closed. *)
Fixpoint remove_first_by_ID (id : string) (clients : list Client) : list Client :=
  match clients with
  | [] => []
  | client :: rest =>
      if decide (ID client = id) then rest
      else client :: remove_first_by_ID id rest
  end.

Definition deferred_cleanup (newClient : Client) : M unit :=
  modify (set_connectedClients (remove_first_by_ID (ID newClient)));;
  modify (add_closed (Conn newClient)).

(** The prologue of [WsHandler], up to the [defer]: the new client is
    appended to [connectedClients] and greeted.  An error of the
    greeting returns before the [defer] is reached. *)
Definition register (newClient : Client) : M unit :=
  modify (set_connectedClients (λ cs, cs ++ [newClient])).

Definition WsHandler_hello (newClient : Client) : M unit :=
  register newClient;;
  data ← lift (encode_envelope "hello" (VHello {| hm_ID := ID newClient |}));
  WriteMessage (Conn newClient) data.

(** What a handler run has come to when the messages read so far are
    used up: it still waits in [conn.ReadMessage], it has returned, or
    it has been unwound by a panic (the deferred function has run, and
    the panic goes on to the HTTP server's recovery). *)
Inductive Status :=
| Waiting
| Returned (err : option error)
| Panicked (reason : string).

(** [conn.ReadMessage] of gorilla/websocket on a connection whose read
    has failed: the error is kept in the connection and every later call
    returns it again, counting the calls; the call that brings the count
    to [readErrLimit] panics instead of returning. *)
Definition readErrLimit : nat := 1000.

Definition repeated_read : string :=
  "repeated read on failed websocket connection".

(** *** [main]: start-up and the HTTP routes *)

(** Where [main] is once the snapshot has been dealt with. *)
Inductive Process :=
| Exited (w : World)
| Serving (w : World).

(** [main] up to [r.Run]: the snapshot is loaded, an error of the load is
    printed, the routes are registered and the server runs. *)
Definition main_with (notation : Notation_) (w : World) : Process :=
  let '(r, w) := LoadGames_with notation w in
  let w := match r with
           | Err e => add_stdout e w
           | Ok _ => w
           end in
  Serving w.

Definition startingFEN : string :=
  "rnbqkbnr/pppppppp/8/8/8/8/PPPPPPPP/RNBQKBNR w KQkq - 0 1".

(** The colours of [POST /game].  [IntN] is [rand.IntN] at this call. *)
Definition assign_colors (IntN : Z → Z) (request : CreateGameRequest)
    (game : ChessGame) : Game :=
  if decide (PreferredColor request = "w") then
    {| Game_ := game; WhitePlayerId := Player1 request;
       BlackPlayerId := Player2 request |}
  else if decide (PreferredColor request = "b") then
    {| Game_ := game; WhitePlayerId := Player2 request;
       BlackPlayerId := Player1 request |}
  else
    let randomNumber := IntN (1 - 0) + 0 in
    if decide (randomNumber = 0) then
      {| Game_ := game; WhitePlayerId := Player1 request;
         BlackPlayerId := Player2 request |}
    else
      {| Game_ := game; WhitePlayerId := Player2 request;
         BlackPlayerId := Player1 request |}.

(** The handler of [POST /game]: [id] is the fresh [uuid.New().String()],
    [body] what [c.BindJSON] made of the request.  It answers with a
    status code and the message or the id. *)
Definition PostGame_with (notation : Notation_) (IntN : Z → Z) (id : string)
    (body : result CreateGameRequest) (w : World) : (Z * string) * World :=
  match body with
  | Err _ => ((400, "Bad request"), w)
  | Ok request =>
      match FEN startingFEN with
      | Err _ => ((500, "Internal server error"), w)
      | Ok fen =>
          let game := NewGame [fen; UseNotation notation] in
          let newGame := assign_colors IntN request game in
          let w := set_games (λ gs, <[id := newGame]> gs) w in
          match SaveGames w with
          | (Err _, w) => ((500, "Internal server error"), w)
          | (Ok _, w) => ((200, id), w)
          end
      end
  end.

(** The handler of [GET /game/:id]. *)
Definition GetGame (id : string) (w : World) : Z * list string :=
  match games w !! id with
  | None => (404, ["Game not found"])
  | Some game => (200, Position_String <$> Game_Positions (Game_ game))
  end.

End Hub.

(** ** The broadcast variant *)

Module Broadcast.
Section Broadcast.
Context `{Eng : RulesEngine} `{Js : Json} `{Rt : Runtime}.

(** [whiteStart] and [blackStart] *)
Definition startCount : gmap PieceType Z :=
  {[ Pawn := 8; Rook := 2; Knight := 2; Bishop := 2; Queen := 1; King := 1 ]}.

(** [whiteCurrent] and [blackCurrent] before the board is scanned *)
Definition zeroCount : gmap PieceType Z :=
  {[ Pawn := 0; Rook := 0; Knight := 0; Bishop := 0; Queen := 0; King := 0 ]}.

(** [current[pt]++]; a key that is absent reads as 0. *)
Definition increment (pt : PieceType) (current : gmap PieceType Z) : gmap PieceType Z :=
  <[pt := current !!! pt + 1]> current.

(** The scan [for sq := chess.A1; sq <= chess.H8; sq++]. *)
Definition count_pieces (board : ChessBoard) : gmap PieceType Z * gmap PieceType Z :=
  foldl (λ '(whiteCurrent, blackCurrent) sq,
           match Board_Piece board sq with
           | NoPiece => (whiteCurrent, blackCurrent)
           | NewPiece pt c =>
               if decide (c = White) then (increment pt whiteCurrent, blackCurrent)
               else (whiteCurrent, increment pt blackCurrent)
           end)
        (zeroCount, zeroCount) (seqZ A1 (H8 - A1 + 1)).

(** [for pt, startCount := range start { captured[pt] = startCount - current[pt] }] *)
Definition captured_count (start current : gmap PieceType Z) : gmap PieceType Z :=
  foldl (λ captured '(pt, startCount), <[pt := startCount - current !!! pt]> captured)
        ∅ (range start).

(** The two nested loops that list the captured pieces of colour [c]:
    [count] entries for a piece type, none when [count] is not positive. *)
Definition captured_pieces (c : Color) (captured : gmap PieceType Z) : list string :=
  foldl (λ pieces '(pt, count),
           pieces ++ replicate (Z.to_nat count) (Piece_String (NewPiece pt c)))
        [] (range captured).

Definition GenerateCapturedPiecesMessage (game : Game) (gameId : string) : result string :=
  let board := Position_Board (Game_Position (Game_ game)) in
  let '(whiteCurrent, blackCurrent) := count_pieces board in
  let whiteCaptured := captured_count startCount whiteCurrent in
  let blackCaptured := captured_count startCount blackCurrent in
  let whitePieces := captured_pieces White whiteCaptured in
  let blackPieces := captured_pieces Black blackCaptured in
  encode_envelope "capturedPieces"
    (VCapturedPieces
       {| cp_GameID := gameId; cp_White := whitePieces; cp_Black := blackPieces |}).

Definition GenerateOutcomeMessage (game : Game) (gameId : string) : result string :=
  let outcome := Game_Outcome (Game_ game) in
  let method := Game_Method (Game_ game) in
  let outcomeMsg := {| om_GameID := gameId; om_Outcome := ""; om_Winner := "" |} in
  let outcomeMsg :=
    if decide (outcome = WhiteWon) then
      {| om_GameID := gameId; om_Outcome := "white won"; om_Winner := "w" |}
    else outcomeMsg in
  let outcomeMsg :=
    if decide (outcome = BlackWon) then
      {| om_GameID := gameId; om_Outcome := "black won"; om_Winner := "b" |}
    else outcomeMsg in
  let outcomeMsg :=
    if decide (outcome = Draw) then
      {| om_GameID := gameId; om_Outcome := "draw"; om_Winner := om_Winner outcomeMsg |}
    else outcomeMsg in
  let outcomeMsg :=
    if decide (method = Checkmate) then
      if decide (om_Outcome outcomeMsg = "") then
        {| om_GameID := gameId; om_Outcome := "checkmate";
           om_Winner := om_Winner outcomeMsg |}
      else
        {| om_GameID := gameId;
           om_Outcome := String.append (om_Outcome outcomeMsg) " checkmate";
           om_Winner := om_Winner outcomeMsg |}
    else outcomeMsg in
  encode_envelope "outcome" (VOutcome outcomeMsg).

Definition GeneratePossibleMovesMessage (game : Game) (gameId clientId : string)
    : result string :=
  let possibleMoves : list string := [] in
  let moves := Game_ValidMoves (Game_ game) in
  if decide (Position_Turn (Game_Position (Game_ game)) = White
             ∧ WhitePlayerId game ≠ clientId) then
    encode_envelope "possibleMoves"
      (VPossibleMoves {| pm_GameID := gameId; pm_Moves := possibleMoves |})
  else if decide (Position_Turn (Game_Position (Game_ game)) = Black
                  ∧ BlackPlayerId game ≠ clientId) then
    encode_envelope "possibleMoves"
      (VPossibleMoves {| pm_GameID := gameId; pm_Moves := possibleMoves |})
  else
    let possibleMoves :=
      foldl (λ possibleMoves move, possibleMoves ++ [Move_String move])
            possibleMoves moves in
    encode_envelope "possibleMoves"
      (VPossibleMoves {| pm_GameID := gameId; pm_Moves := possibleMoves |}).

Definition GenerateMoveAnswerMessage (game : Game) (move : MoveMessage) : result string :=
  encode_envelope "move"
    (VMoveAnswerFen
       {| maf_GameID := mm_GameID move;
          maf_Fen := Position_String (Game_Position (Game_ game)) |}).

(** The loop of [HandleMove] over [connectedClients]. *)
Fixpoint broadcast (clients : list Client)
    (moveAnswer possibleMoveData capturedPiecesData : string) : M unit :=
  match clients with
  | [] => mret ()
  | client :: rest =>
      err ← catch (WriteMessage (Conn client) moveAnswer);
      match err with
      | Some e => Println e
      | None =>
          err ← catch (WriteMessage (Conn client) possibleMoveData);
          match err with
          | Some e => Println e
          | None =>
              err ← catch (WriteMessage (Conn client) capturedPiecesData);
              match err with
              | Some e => Println e
              | None => mret ()
              end
          end
      end;;
      broadcast rest moveAnswer possibleMoveData capturedPiecesData
  end.

(** [MoveStr] works on the game behind the pointer [games[move.GameID]]:
    the store holds what the call left there, error or not. *)
Definition HandleMove (wsMsg : WebsocketMessage) (client : Client) : M unit :=
  move ← lift (Unmarshal_MoveMessage (ws_Payload wsMsg));
  found ← lookup_game (mm_GameID move);
  match found with
  | None => fail "Game not found"
  | Some game =>
      let '(g, err) := Game_MoveStr (Game_ game) (mm_Move move) in
      let game := with_chess game g in
      store_game (mm_GameID move) game;;
      match err with
      | Some e => fail e
      | None =>
          SaveGames;;
          if decide (Game_Outcome (Game_ game) ≠ NoOutcome) then
            moveAnswer ← lift (GenerateMoveAnswerMessage game move);
            WriteMessage (Conn client) moveAnswer;;
            data ← lift (GenerateOutcomeMessage game (mm_GameID move));
            WriteMessage (Conn client) data
          else
            moveAnswer ← lift (GenerateMoveAnswerMessage game move);
            possibleMoveData ←
              lift (GeneratePossibleMovesMessage game (mm_GameID move) (ID client));
            capturedPiecesData ←
              lift (GenerateCapturedPiecesMessage game (mm_GameID move));
            clients ← gets connectedClients;
            broadcast clients moveAnswer possibleMoveData capturedPiecesData
      end
  end.

Definition HandleJoin (wsMsg : WebsocketMessage) (newClient : Client) : M unit :=
  join ← lift (Unmarshal_JoinMessage (ws_Payload wsMsg));
  found ← lookup_game (jm_GameID join);
  match found with
  | None => fail "Game not found"
  | Some game =>
      data ← lift (GenerateAgainstMessage game newClient);
      WriteMessage (Conn newClient) data;;
      data ← lift (GeneratePossibleMovesMessage game (jm_GameID join) (ID newClient));
      WriteMessage (Conn newClient) data;;
      outcome ← lift (GenerateOutcomeMessage game (jm_GameID join));
      WriteMessage (Conn newClient) outcome;;
      capturedPiecesData ← lift (GenerateCapturedPiecesMessage game (jm_GameID join));
      WriteMessage (Conn newClient) capturedPiecesData
  end.

(** The [switch wsMsg.Type]; a [break] in it leaves the switch, not the
    loop.  An error of a handler is printed. *)
Definition dispatch (wsMsg : WebsocketMessage) (newClient : Client) (w : World) : World :=
  if decide (ws_Type wsMsg = "leave") then w
  else if decide (ws_Type wsMsg = "join") then
    match HandleJoin wsMsg newClient w with
    | (Err e, w) => add_stdout e w
    | (Ok _, w) => w
    end
  else if decide (ws_Type wsMsg = "move") then
    match HandleMove wsMsg newClient w with
    | (Err e, w) => add_stdout e w
    | (Ok _, w) => w
    end
  else w.

(** The [for] loop of [WsHandler] once a read has failed.  Each turn
    calls [conn.ReadMessage], which counts the call and returns the same
    error, and the loop [continue]s; the call that reaches
    [readErrLimit] panics.  [calls] bounds the turns; [readErrCount] is
    the connection's count of failed reads so far. *)
Fixpoint reads_on_failed_connection (calls readErrCount : nat) (w : World)
    : option string * World :=
  match calls with
  | O => (None, w)
  | S calls =>
      let readErrCount := S readErrCount in
      if decide (readErrLimit ≤ readErrCount)%nat then (Some repeated_read, w)
      else reads_on_failed_connection calls readErrCount w
  end.

(** The [for] loop of [WsHandler] over what [conn.ReadMessage] returns,
    call after call, up to the first read that fails; from there on the
    connection returns the error to every call, whatever the peer would
    have sent.  Both error branches of this variant [continue], so the
    loop is left by the panic of [conn.ReadMessage] and in no other way:
    the result is the panic's reason, or [None] while the loop waits for
    the next message. *)
Fixpoint WsHandler_loop (newClient : Client) (reads : list (result string))
    (w : World) : option string * World :=
  match reads with
  | [] => (None, w)
  | Err _ :: _ => reads_on_failed_connection readErrLimit 0 w
  | Ok msg :: reads =>
      match Unmarshal_WebsocketMessage msg with
      | Err _ => WsHandler_loop newClient reads w
      | Ok wsMsg => WsHandler_loop newClient reads (dispatch wsMsg newClient w)
      end
  end.

(** [upgrade] is what [upgrader.Upgrade] returns.  A panic in the loop
    runs the deferred function on its way out. *)
Definition WsHandler (upgrade : result nat) (id : string)
    (reads : list (result string)) (w : World) : Status * World :=
  match upgrade with
  | Err e => (Returned (Some e), w)
  | Ok conn =>
      let newClient := {| ID := id; Conn := conn |} in
      match WsHandler_hello newClient w with
      | (Err e, w) => (Returned (Some e), w)
      | (Ok _, w) =>
          match WsHandler_loop newClient reads w with
          | (Some reason, w) =>
              let '(_, w) := deferred_cleanup newClient w in
              (Panicked reason, w)
          | (None, w) => (Waiting, w)
          end
      end
  end.

Definition LoadGames : M unit := LoadGames_with UCINotation.
Definition main : World → Process := main_with UCINotation.
Definition PostGame := PostGame_with UCINotation.

End Broadcast.

#[global] Arguments reads_on_failed_connection : simpl never.

End Broadcast.

(** ** The opponent-only variant *)

Module OpponentOnly.
Section OpponentOnly.
Context `{Eng : RulesEngine} `{Js : Json} `{Rt : Runtime}.

Definition GenerateMoveAnswerMessage (game : Game) (move : MoveMessage) : result string :=
  encode_envelope "move"
    (VMoveAnswerMove {| mam_GameID := mm_GameID move; mam_Move := mm_Move move |}).

(** The loop of [HandleMove] over [game.Game.ValidMoves()]: the first
    move whose notation is the submitted string is applied and ends the
    loop.  It returns the game, the error of [Move] and [moved]. *)
Fixpoint find_and_move (moves : list ChessMove) (submitted : string) (g : ChessGame)
    : ChessGame * option error * bool :=
  match moves with
  | [] => (g, None, false)
  | m :: moves =>
      if decide (Move_String m = submitted) then
        let '(g, err) := Game_Move g m in
        match err with
        | Some e => (g, Some e, false)
        | None => (g, None, true)
        end
      else find_and_move moves submitted g
  end.

(** The loop of [HandleMove] over [connectedClients], in the [default]
    case of the [switch opponent]. *)
Fixpoint notify_opponent (clients : list Client) (opponent : string)
    (game : Game) (move : MoveMessage) : M unit :=
  match clients with
  | [] => mret ()
  | client :: rest =>
      (if decide (ID client = opponent) then
         match GenerateMoveAnswerMessage game move with
         | Err e => Println e
         | Ok data =>
             catch (WriteMessage (Conn client) data);;
             mret ()
         end
       else mret ());;
      notify_opponent rest opponent game move
  end.

Definition HandleMove (wsMsg : WebsocketMessage) (client : Client) : M unit :=
  move ← lift (Unmarshal_MoveMessage (ws_Payload wsMsg));
  found ← lookup_game (mm_GameID move);
  match found with
  | None => fail "Game not found"
  | Some game =>
      let moves := Game_ValidMoves (Game_ game) in
      let '(g, err, moved) := find_and_move moves (mm_Move move) (Game_ game) in
      let game := with_chess game g in
      store_game (mm_GameID move) game;;
      match err with
      | Some e => fail e
      | None =>
          if negb moved then fail "Invalid move"
          else
            SaveGames;;
            let opponent :=
              if decide (WhitePlayerId game = ID client) then BlackPlayerId game
              else WhitePlayerId game in
            if decide (opponent = "") then mret ()
            else if decide (opponent = "ai") then mret ()
            else
              clients ← gets connectedClients;
              notify_opponent clients opponent game move
      end
  end.

Definition HandleJoin (wsMsg : WebsocketMessage) (newClient : Client) : M unit :=
  join ← lift (Unmarshal_JoinMessage (ws_Payload wsMsg));
  found ← lookup_game (jm_GameID join);
  match found with
  | None => fail "Game not found"
  | Some game =>
      data ← lift (GenerateAgainstMessage game newClient);
      WriteMessage (Conn newClient) data
  end.

Definition dispatch (wsMsg : WebsocketMessage) (newClient : Client) (w : World) : World :=
  if decide (ws_Type wsMsg = "leave") then w
  else if decide (ws_Type wsMsg = "join") then
    match HandleJoin wsMsg newClient w with
    | (Err e, w) => add_stdout e w
    | (Ok _, w) => w
    end
  else if decide (ws_Type wsMsg = "move") then
    match HandleMove wsMsg newClient w with
    | (Err e, w) => add_stdout e w
    | (Ok _, w) => w
    end
  else w.

(** The [for] loop of [WsHandler]; both error branches of this variant
    [break]. *)
Fixpoint WsHandler_loop (newClient : Client) (reads : list (result string))
    (w : World) : bool * World :=
  match reads with
  | [] => (false, w)
  | Err _ :: _ => (true, w)
  | Ok msg :: reads =>
      match Unmarshal_WebsocketMessage msg with
      | Err _ => (true, w)
      | Ok wsMsg => WsHandler_loop newClient reads (dispatch wsMsg newClient w)
      end
  end.

Definition WsHandler (upgrade : result nat) (id : string)
    (reads : list (result string)) (w : World) : Status * World :=
  match upgrade with
  | Err e => (Returned (Some e), w)
  | Ok conn =>
      let newClient := {| ID := id; Conn := conn |} in
      match WsHandler_hello newClient w with
      | (Err e, w) => (Returned (Some e), w)
      | (Ok _, w) =>
          let '(exited, w) := WsHandler_loop newClient reads w in
          if exited then
            let '(_, w) := deferred_cleanup newClient w in
            (Returned None, w)
          else (Waiting, w)
      end
  end.

Definition LoadGames : M unit := LoadGames_with LongAlgebraicNotation.
Definition main : World → Process := main_with LongAlgebraicNotation.
Definition PostGame := PostGame_with LongAlgebraicNotation.

End OpponentOnly.
End OpponentOnly.

(** ** A small engine and codec to run the hub on

    [Toy.engine] plays pawn pushes only, from the standard starting
    position, with moves written square to square as [UCINotation] writes
    them; [Toy.json] is a separator-based codec.  They stand in for
    github.com/notnil/chess and encoding/json where a handler is run on a
    concrete input. *)

Module Toy.

Record position := { board : list Piece; turn : Color }.
Record move := { s1 : Z; s2 : Z }.
Record game := { pos : position; history : list position; played : list move }.
Inductive option_ := OptPosition (p : position) | OptNotation (n : Notation_).

#[global] Instance move_eq_dec : EqDecision move.
Proof. solve_decision. Defined.

Definition piece_at (b : list Piece) (sq : Z) : Piece :=
  if decide (0 ≤ sq < 64) then nth (Z.to_nat sq) b NoPiece else NoPiece.

Definition back_rank (c : Color) : list Piece :=
  (λ pt, NewPiece pt c) <$> [Rook; Knight; Bishop; Queen; King; Bishop; Knight; Rook].

Definition starting_board : list Piece :=
  back_rank White ++ replicate 8 (NewPiece Pawn White) ++ replicate 32 NoPiece
  ++ replicate 8 (NewPiece Pawn Black) ++ back_rank Black.

Definition starting_position : position :=
  {| board := starting_board; turn := White |}.

Definition forward (c : Color) : Z := if decide (c = White) then 8 else -8.
Definition home_rank (c : Color) : Z := if decide (c = White) then 1 else 6.

Definition pawn_moves (p : position) (sq : Z) : list move :=
  if decide (piece_at (board p) sq = NewPiece Pawn (turn p)) then
    let one := sq + forward (turn p) in
    let two := one + forward (turn p) in
    if decide (0 ≤ one < 64 ∧ piece_at (board p) one = NoPiece) then
      {| s1 := sq; s2 := one |} ::
      (if decide (sq `div` 8 = home_rank (turn p) ∧ piece_at (board p) two = NoPiece)
       then [ {| s1 := sq; s2 := two |} ] else [])
    else []
  else [].

Definition valid_moves (p : position) : list move :=
  flat_map (pawn_moves p) (seqZ 0 64).

Definition other (c : Color) : Color := if decide (c = White) then Black else White.

Definition update (p : position) (m : move) : position :=
  {| board := <[Z.to_nat (s2 m) := piece_at (board p) (s1 m)]>
                (<[Z.to_nat (s1 m) := NoPiece]> (board p));
     turn := other (turn p) |}.

Definition play (g : game) (m : move) : game :=
  {| pos := update (pos g) m; history := history g ++ [update (pos g) m];
     played := played g ++ [m] |}.

Definition square_name (sq : Z) : string :=
  String (ascii_of_nat (97 + Z.to_nat (sq `mod` 8)))
    (String (ascii_of_nat (49 + Z.to_nat (sq `div` 8))) "").

Definition move_string (m : move) : string :=
  String.append (square_name (s1 m)) (square_name (s2 m)).

Definition do_move (g : game) (m : move) : game * option error :=
  if decide (m ∈ valid_moves (pos g)) then (play g m, None)
  else (g, Some "chess: invalid move").

Definition move_str (g : game) (s : string) : game * option error :=
  match find (λ m, bool_decide (move_string m = s)) (valid_moves (pos g)) with
  | Some m => do_move g m
  | None => (g, Some "chess: failed to decode notation text")
  end.

Fixpoint split_on (c : ascii) (s : string) : list string :=
  match s with
  | EmptyString => [EmptyString]
  | String a rest =>
      if decide (a = c) then EmptyString :: split_on c rest
      else match split_on c rest with
           | [] => [String a EmptyString]
           | field :: fields => String a field :: fields
           end
  end.

Fixpoint join (sep : string) (fields : list string) : string :=
  match fields with
  | [] => ""
  | [field] => field
  | field :: fields => String.append field (String.append sep (join sep fields))
  end.

Definition new_game (options : list option_) : game :=
  let p := foldl (λ p o, match o with OptPosition q => q | OptNotation _ => p end)
                 starting_position options in
  {| pos := p; history := [p]; played := [] |}.

Definition marshal_text (g : game) : result string :=
  Ok (join " " (move_string <$> played g)).

Fixpoint replay (g : game) (texts : list string) : game * option error :=
  match texts with
  | [] => (g, None)
  | s :: texts =>
      match move_str g s with
      | (g, None) => replay g texts
      | (g, Some e) => (g, Some e)
      end
  end.

Definition unmarshal_text (g : game) (text : string) : game * option error :=
  match replay (new_game []) (filter (λ s, s ≠ "") (split_on " " text)) with
  | (decoded, None) => (decoded, None)
  | (_, Some e) => (g, Some e)
  end.

Definition piece_string (p : Piece) : string :=
  match p with
  | NoPiece => "."
  | NewPiece King White => "K" | NewPiece Queen White => "Q"
  | NewPiece Rook White => "R" | NewPiece Bishop White => "B"
  | NewPiece Knight White => "N" | NewPiece Pawn White => "P"
  | NewPiece King Black => "k" | NewPiece Queen Black => "q"
  | NewPiece Rook Black => "r" | NewPiece Bishop Black => "b"
  | NewPiece Knight Black => "n" | NewPiece Pawn Black => "p"
  end.

Definition position_string (p : position) : string :=
  String.append (join "" (piece_string <$> board p))
    (if decide (turn p = White) then " w" else " b").

#[global] Instance engine : RulesEngine := {|
  ChessGame := game;
  ChessPosition := position;
  ChessBoard := list Piece;
  ChessMove := move;
  GameOption := option_;
  FEN := λ s, if decide (s = startingFEN) then Ok (OptPosition starting_position)
              else Err "chess: fen invalid";
  UseNotation := OptNotation;
  NewGame := new_game;
  Game_Position := pos;
  Game_Positions := history;
  Game_ValidMoves := λ g, valid_moves (pos g);
  Game_Move := do_move;
  Game_MoveStr := move_str;
  Game_Outcome := λ g, match valid_moves (pos g) with [] => Draw | _ => NoOutcome end;
  Game_Method := λ g, match valid_moves (pos g) with [] => Stalemate | _ => NoMethod end;
  Game_MarshalText := marshal_text;
  Game_UnmarshalText := unmarshal_text;
  Position_Turn := turn;
  Position_Board := board;
  Position_String := position_string;
  Board_Piece := piece_at;
  Move_String := move_string;
  Piece_String := piece_string;
|}.

Definition stored_line (entry : string * StoredGame) : string :=
  join "," [entry.1; sg_WhitePlayerId entry.2; sg_BlackPlayerId entry.2; PGNStr entry.2].

Definition marshal (v : Marshalled) : result string :=
  Ok match v with
     | VOutcome m => join "," [om_GameID m; om_Outcome m; om_Winner m]
     | VMoveAnswerFen m => join "," [maf_GameID m; maf_Fen m]
     | VMoveAnswerMove m => join "," [mam_GameID m; mam_Move m]
     | VAgainst m => join "," [am_ID m; am_Color m]
     | VWebsocket m => join "|" [ws_Type m; ws_Payload m]
     | VHello m => hm_ID m
     | VPossibleMoves m => join "," (pm_GameID m :: pm_Moves m)
     | VCapturedPieces m =>
         join "," [cp_GameID m; join "" (cp_White m); join "" (cp_Black m)]
     | VStoredGames m => join ";" (stored_line <$> map_to_list m)
     end.

Definition unmarshal_websocket (s : string) : result WebsocketMessage :=
  match split_on "|" s with
  | [type; payload] => Ok {| ws_Type := type; ws_Payload := payload |}
  | _ => Err "json: cannot unmarshal into WebsocketMessage"
  end.

Definition unmarshal_move (s : string) : result MoveMessage :=
  match split_on "," s with
  | [gameId; color; mv] => Ok {| mm_GameID := gameId; mm_Color := color; mm_Move := mv |}
  | _ => Err "json: cannot unmarshal into MoveMessage"
  end.

Definition unmarshal_join (s : string) : result JoinMessage :=
  match split_on "," s with
  | [gameId] => Ok {| jm_GameID := gameId |}
  | _ => Err "json: cannot unmarshal into JoinMessage"
  end.

Fixpoint unmarshal_lines (lines : list string) : result (gmap string StoredGame) :=
  match lines with
  | [] => Ok ∅
  | line :: lines =>
      match split_on "," line with
      | [id; white; black; pgn] =>
          stored ← unmarshal_lines lines;
          Ok (<[id := {| PGNStr := pgn; sg_WhitePlayerId := white;
                         sg_BlackPlayerId := black |}]> stored)
      | _ => Err "json: cannot unmarshal into StoredGames"
      end
  end.

Definition unmarshal_stored (s : string) : result (gmap string StoredGame) :=
  if decide (s = "") then Ok ∅ else unmarshal_lines (split_on ";" s).

#[global] Instance json : Json := {|
  Marshal := marshal;
  Unmarshal_WebsocketMessage := unmarshal_websocket;
  Unmarshal_MoveMessage := unmarshal_move;
  Unmarshal_JoinMessage := unmarshal_join;
  Unmarshal_StoredGames := unmarshal_stored;
|}.

(** [range] in the order of [map_to_list]; a write that fails has
    truncated the file and written nothing. *)
#[global] Instance runtime : Runtime :=
  {| range := λ K _ _ V m, map_to_list m; failed_write := λ _, Some "" |}.

(** One session between alice (White) and bob (Black), nobody
    connected, no snapshot on disk yet. *)
Definition fresh_game : Game :=
  {| WhitePlayerId := "alice"; BlackPlayerId := "bob";
     Game_ := NewGame [OptPosition starting_position; UseNotation UCINotation] |}.

Definition empty_world : World :=
  {| games := ∅; connectedClients := []; games_json := None; disk_fails := false;
     broken := ∅; sent := []; closed := []; stdout := []; saveCalls := 0 |}.

Definition one_game : World := set_games (λ _, {[ "g1" := fresh_game ]}) empty_world.

(** The same with a disk that cannot be written. *)
Definition full_disk : World :=
  {| games := {[ "g1" := fresh_game ]}; connectedClients := []; games_json := None;
     disk_fails := true; broken := ∅; sent := []; closed := []; stdout := [];
     saveCalls := 0 |}.

(** The session with both players connected. *)
Definition playing : World :=
  set_connectedClients
    (λ _, [ {| ID := "alice"; Conn := 1 |}; {| ID := "bob"; Conn := 2 |} ]) one_game.




(** The session with the transport of connection 1 broken. *)
Definition broken_transport : World :=
  {| games := {[ "g1" := fresh_game ]}; connectedClients := []; games_json := None;
     disk_fails := false; broken := {[ 1%nat ]}; sent := []; closed := [];
     stdout := []; saveCalls := 0 |}.

(** The stored map with the one session g1 and the game text [pgn]. *)
Definition snapshot_of (pgn : string) : gmap string StoredGame :=
  {[ "g1" := {| PGNStr := pgn; sg_WhitePlayerId := "alice";
                sg_BlackPlayerId := "bob" |} ]}.

(** A restarted process that finds the snapshot [data]. *)
Definition restarted (data : string) : World := set_games_json data empty_world.

(** A late position: the kings, and a white queen next to a pawn that
    has promoted to a second one. *)
Definition two_queens : list Piece :=
  <[3%nat := NewPiece Queen White]>
    (<[4%nat := NewPiece King White]>
       (<[10%nat := NewPiece Queen White]>
          (<[60%nat := NewPiece King Black]> (replicate 64 NoPiece)))).

Definition promoted_game : Game :=
  {| WhitePlayerId := "alice"; BlackPlayerId := "bob";
     Game_ := new_game [OptPosition {| board := two_queens; turn := Black |}] |}.

End Toy.

(** ** What the properties speak about *)

(** The reading of the engine's [MoveStr] that the broadcast variant
    relies on: a string that is the notation of no valid move is refused
    and the game is left as it was. *)
Definition MoveStr_refuses_illegal `{RulesEngine} : Prop :=
  ∀ (g : ChessGame) (s : string),
    s ∉ Move_String <$> Game_ValidMoves g →
    ∃ e, Game_MoveStr g s = (g, Some e).

(** The legal-move set of a session, in notation. *)
Definition legal_moves `{RulesEngine} (game : Game) : list string :=
  Move_String <$> Game_ValidMoves (Game_ game).

(** What a session commit is about: the session store, the registry,
    the snapshot file and the count of [SaveGames] calls. *)
Definition store_of `{RulesEngine} (w : World)
    : gmap string Game * list Client * option string * bool * nat :=
  (games w, connectedClients w, games_json w, disk_fails w, saveCalls w).

(** What a connection's teardown is about: the registry and the
    connections closed so far. *)
Definition registry_of `{RulesEngine} (w : World) : list Client * list nat :=
  (connectedClients w, closed w).

(** A handler that leaves the view [f] of the world alone, whatever it
    returns. *)
Definition keeps `{RulesEngine} {A B} (f : World → B) (m : M A) : Prop :=
  ∀ w, f (m w).2 = f w.

(** Two handlers that agree on the view [f] from every world. *)
Definition agree_on `{RulesEngine} {A B} (f : World → B) (m1 m2 : M A) : Prop :=
  ∀ w, f (m1 w).2 = f (m2 w).2.

(** The requester [r] controls the side to move of the session. *)
Definition on_turn `{RulesEngine} (game : Game) (r : string) : Prop :=
  (Position_Turn (Game_Position (Game_ game)) = White ∧ WhitePlayerId game = r)
  ∨ (Position_Turn (Game_Position (Game_ game)) = Black ∧ BlackPlayerId game = r).

(** The [possibleMoves] envelope that carries the move list [moves]. *)
Definition possibleMoves_envelope `{Json} (gameId : string) (moves : list string)
    : result string :=
  encode_envelope "possibleMoves"
    (VPossibleMoves {| pm_GameID := gameId; pm_Moves := moves |}).

(** The reading of the engine's [Outcome] that the legal-move view
    relies on: a game without an outcome has a valid move (the engine
    records stalemate and checkmate as outcomes). *)
Definition Outcome_tracks_moves `{RulesEngine} : Prop :=
  ∀ g : ChessGame, Game_Outcome g = NoOutcome → Game_ValidMoves g ≠ [].

(** [json.Marshal] of the records of [main.go], which hold strings and
    lists of strings, does not fail. *)
Definition Marshal_total `{Json} : Prop :=
  ∀ v : Marshalled, ∃ data, Marshal v = Ok data.

(** The number of squares of the board that hold the piece of type [pt]
    and colour [c]. *)
Definition on_board `{RulesEngine} (board : ChessBoard) (c : Color) (pt : PieceType) : Z :=
  Z.of_nat (length (filter (λ sq, Board_Piece board sq = NewPiece pt c)
                           (seqZ A1 (H8 - A1 + 1)))).

(** The [capturedPieces] envelope that lists the pieces [white] and
    [black]. *)
Definition capturedPieces_envelope `{RulesEngine} `{Json} (gameId : string)
    (white black : list Piece) : result string :=
  encode_envelope "capturedPieces"
    (VCapturedPieces
       {| cp_GameID := gameId; cp_White := Piece_String <$> white;
          cp_Black := Piece_String <$> black |}).

(** How often the piece of type [pt] and colour [c] is listed. *)
Definition listed (c : Color) (pt : PieceType) (pieces : list Piece) : Z :=
  Z.of_nat (length (filter (λ p, p = NewPiece pt c) pieces)).


(** [stored] is the snapshot of the store [gs]: an entry under every
    session id and under no other, with the text of the session's game
    and its two participants. *)
Definition snapshot_of_store `{RulesEngine} (gs : gmap string Game)
    (stored : gmap string StoredGame) : Prop :=
  dom stored = dom gs
  ∧ ∀ id game, gs !! id = Some game →
      ∃ pgn, Game_MarshalText (Game_ game) = Ok pgn
             ∧ stored !! id
               = Some {| PGNStr := pgn; sg_WhitePlayerId := WhitePlayerId game;
                         sg_BlackPlayerId := BlackPlayerId game |}.

(** Everything of the world but the content of games.json. *)
Definition beside_the_file `{RulesEngine} (w : World) :=
  (games w, connectedClients w, disk_fails w, broken w, sent w, closed w, stdout w,
   saveCalls w).

(** The content of games.json after a [SaveGames] of the store [gs] that
    has returned an error: what it was [before], or the part that the
    failed write has left of the encoded snapshot of [gs]. *)
Definition file_after_failed_save `{RulesEngine} `{Json} `{Runtime}
    (gs : gmap string Game) (before after : option string) : Prop :=
  after = before
  ∨ ∃ stored data part,
      snapshot_of_store gs stored
      ∧ Marshal (VStoredGames stored) = Ok data
      ∧ failed_write data = Some part
      ∧ after = Some part.

(** The session that [LoadGames] makes of a stored game. *)
Definition reconstructed `{RulesEngine} (notation : Notation_) (storedGame : StoredGame)
    : Game :=
  {| Game_ := (Game_UnmarshalText (NewGame [UseNotation notation]) (PGNStr storedGame)).1;
     WhitePlayerId := sg_WhitePlayerId storedGame;
     BlackPlayerId := sg_BlackPlayerId storedGame |}.



(** * Properties of the hub *)

(** ** Bookkeeping lemmas *)

Section Basics.
Context `{Eng : RulesEngine} `{Js : Json} `{Rt : Runtime}.

Lemma with_chess_same (game : Game) : with_chess game (Game_ game) = game.
Proof. by destruct game. Qed.

Lemma set_games_same (f : gmap string Game → gmap string Game) (w : World) :
  f (games w) = games w → set_games f w = w.
Proof. destruct w; unfold set_games; simpl; by intros ->. Qed.

Lemma store_game_same (id : string) (game : Game) (w : World) :
  games w !! id = Some game → store_game id game w = (Ok (), w).
Proof.
  intros Hid. unfold store_game, modify. f_equal.
  apply set_games_same. by apply insert_id.
Qed.

(** No move of the list is written as [s]: the loop of the opponent-only
    [HandleMove] calls [Move] on none and reports [moved = false]. *)
Lemma find_and_move_none (moves : list ChessMove) (s : string) (g : ChessGame) :
  s ∉ Move_String <$> moves →
  OpponentOnly.find_and_move moves s g = (g, None, false).
Proof.
  induction moves as [|m moves IH]; simpl; [done|].
  intros Hnot. apply not_elem_of_cons in Hnot as [Hne Hrest].
  destruct (decide (Move_String m = s)); [congruence|]. by apply IH.
Qed.

End Basics.

Section MoveClaims.
Context `{Eng : RulesEngine} `{Js : Json} `{Rt : Runtime}.

(** C1.  A move string that is the notation of no legal move of the
    session's position is refused and nothing changes: the world after
    the handler is the world before it, so the position is the same, the
    snapshot file is not written and [SaveGames] is not called (its call
    counter is part of the world).  The opponent-only handler does so by
    its own scan of [ValidMoves]; the broadcast handler hands the string
    to the engine's [MoveStr] and does so when [MoveStr] refuses such
    strings without touching the game. *)
Theorem C1_illegal_move_leaves_session_and_snapshot
    (wsMsg : WebsocketMessage) (client : Client) (move : MoveMessage)
    (game : Game) (w : World) :
  Unmarshal_MoveMessage (ws_Payload wsMsg) = Ok move →
  games w !! mm_GameID move = Some game →
  mm_Move move ∉ legal_moves game →
  OpponentOnly.HandleMove wsMsg client w = (Err "Invalid move", w)
  ∧ (MoveStr_refuses_illegal →
     ∃ e, Broadcast.HandleMove wsMsg client w = (Err e, w)).
Proof.
  intros Hdec Hgame Hnot. split.
  - unfold OpponentOnly.HandleMove, mbind, M_bind, lift, lookup_game, gets.
    rewrite Hdec, Hgame.
    rewrite (find_and_move_none _ _ _ Hnot), with_chess_same.
    by rewrite (store_game_same _ _ _ Hgame).
  - intros Hengine. destruct (Hengine _ _ Hnot) as [e He]. exists e.
    unfold Broadcast.HandleMove, mbind, M_bind, lift, lookup_game, gets.
    rewrite Hdec, Hgame, He, with_chess_same.
    by rewrite (store_game_same _ _ _ Hgame).
Qed.

End MoveClaims.

(** The toy engine's [MoveStr] looks the string up among the valid
    moves, so it refuses every other string. *)
Lemma toy_MoveStr_refuses_illegal : @MoveStr_refuses_illegal Toy.engine.
Proof.
  intros g s Hnot. simpl in *. unfold Toy.move_str.
  destruct (find _ _) as [m|] eqn:Hfind; [|by eexists].
  apply find_some in Hfind as [Hin Heq].
  apply bool_decide_eq_true in Heq. exfalso. apply Hnot.
  apply list_elem_of_fmap. exists m. split; [done|]. by apply list_elem_of_In.
Qed.

Lemma C1_witness :
  let wsMsg := {| ws_Type := "move"; ws_Payload := "g1,w,e2e5" |} in
  let client := {| ID := "alice"; Conn := 1 |} in
  OpponentOnly.HandleMove wsMsg client Toy.one_game = (Err "Invalid move", Toy.one_game)
  ∧ ∃ e, Broadcast.HandleMove wsMsg client Toy.one_game = (Err e, Toy.one_game).
Proof.
  intros wsMsg client.
  destruct (C1_illegal_move_leaves_session_and_snapshot wsMsg client
              {| mm_GameID := "g1"; mm_Color := "w"; mm_Move := "e2e5" |}
              Toy.fresh_game Toy.one_game) as [HB HA].
  - reflexivity.
  - reflexivity.
  - apply (bool_decide_unpack _). vm_compute. exact I.
  - split; [exact HB|]. apply HA, toy_MoveStr_refuses_illegal.
Defined.

(** ** Views of the world that the sending of messages leaves alone *)

Section Keeps.
Context `{Eng : RulesEngine} `{Js : Json} `{Rt : Runtime}.
Context {B : Type} (f : World → B).
Hypothesis f_sent : ∀ conn data w, f (add_sent conn data w) = f w.
Hypothesis f_stdout : ∀ line w, f (add_stdout line w) = f w.

Lemma keeps_ret {A} (a : A) : keeps f (mret a : M A).
Proof. by intros w. Qed.

Lemma keeps_lift {A} (r : result A) : keeps f (lift r).
Proof. by intros w. Qed.

Lemma keeps_fail {A} (e : error) : keeps f (fail e : M A).
Proof. by intros w. Qed.

Lemma keeps_gets {A} (g : World → A) : keeps f (gets g).
Proof. by intros w. Qed.

Lemma keeps_bind {A C} (m : M A) (k : A → M C) :
  keeps f m → (∀ a, keeps f (k a)) → keeps f (m ≫= k).
Proof.
  intros Hm Hk w. unfold mbind, M_bind. specialize (Hm w).
  destruct (m w) as [[a|e] w1]; simpl in *; [|done].
  by rewrite Hk.
Qed.

Lemma keeps_WriteMessage (conn : nat) (data : string) :
  keeps f (WriteMessage conn data).
Proof. intros w. unfold WriteMessage. case_decide; simpl; [done|apply f_sent]. Qed.

Lemma keeps_Println (e : error) : keeps f (Println e).
Proof. intros w. apply f_stdout. Qed.

Lemma keeps_catch (m : M unit) : keeps f m → keeps f (catch m).
Proof.
  intros Hm w. unfold catch. specialize (Hm w).
  by destruct (m w) as [[a|e] w1].
Qed.

Lemma keeps_broadcast (clients : list Client) (a b c : string) :
  keeps f (Broadcast.broadcast clients a b c).
Proof.
  induction clients as [|client rest IH]; simpl; [apply keeps_ret|].
  apply keeps_bind; [apply keeps_catch, keeps_WriteMessage|].
  intros err. apply keeps_bind; [|intros ?; apply IH].
  destruct err as [e|]; [apply keeps_Println|].
  apply keeps_bind; [apply keeps_catch, keeps_WriteMessage|].
  intros [e|]; [apply keeps_Println|].
  apply keeps_bind; [apply keeps_catch, keeps_WriteMessage|].
  intros [e|]; [apply keeps_Println|apply keeps_ret].
Qed.

Lemma keeps_notify_opponent (clients : list Client) (opponent : string)
    (game : Game) (move : MoveMessage) :
  keeps f (OpponentOnly.notify_opponent clients opponent game move).
Proof.
  induction clients as [|client rest IH]; simpl; [apply keeps_ret|].
  apply keeps_bind; [|intros ?; apply IH].
  case_decide; [|apply keeps_ret].
  destruct (OpponentOnly.GenerateMoveAnswerMessage game move);
    [|apply keeps_Println].
  apply keeps_bind; [apply keeps_catch, keeps_WriteMessage|].
  intros ?. apply keeps_ret.
Qed.

(** What the broadcast [HandleMove] does once the move is committed. *)
Lemma keeps_after_commit_broadcast (game : Game) (move : MoveMessage)
    (client : Client) :
  keeps f
    (if decide (Game_Outcome (Game_ game) ≠ NoOutcome) then
       moveAnswer ← lift (Broadcast.GenerateMoveAnswerMessage game move);
       WriteMessage (Conn client) moveAnswer;;
       data ← lift (Broadcast.GenerateOutcomeMessage game (mm_GameID move));
       WriteMessage (Conn client) data
     else
       moveAnswer ← lift (Broadcast.GenerateMoveAnswerMessage game move);
       possibleMoveData ←
         lift (Broadcast.GeneratePossibleMovesMessage game (mm_GameID move) (ID client));
       capturedPiecesData ←
         lift (Broadcast.GenerateCapturedPiecesMessage game (mm_GameID move));
       clients ← gets connectedClients;
       Broadcast.broadcast clients moveAnswer possibleMoveData capturedPiecesData).
Proof.
  case_decide.
  - apply keeps_bind; [apply keeps_lift|intros ?].
    apply keeps_bind; [apply keeps_WriteMessage|intros ?].
    apply keeps_bind; [apply keeps_lift|intros ?].
    apply keeps_WriteMessage.
  - apply keeps_bind; [apply keeps_lift|intros ?].
    apply keeps_bind; [apply keeps_lift|intros ?].
    apply keeps_bind; [apply keeps_lift|intros ?].
    apply keeps_bind; [apply keeps_gets|intros ?].
    apply keeps_broadcast.
Qed.

(** What the opponent-only [HandleMove] does once the move is committed. *)
Lemma keeps_after_commit_opponent (game : Game) (move : MoveMessage)
    (client : Client) :
  keeps f
    (let opponent :=
       if decide (WhitePlayerId game = ID client) then BlackPlayerId game
       else WhitePlayerId game in
     if decide (opponent = "") then mret ()
     else if decide (opponent = "ai") then mret ()
     else
       clients ← gets connectedClients;
       OpponentOnly.notify_opponent clients opponent game move).
Proof.
  simpl. repeat case_decide; try apply keeps_ret;
    (apply keeps_bind; [apply keeps_gets|intros ?];
     apply keeps_notify_opponent).
Qed.

(** The view is moreover blind to the session store and the snapshot:
    then no handler changes it. *)
Hypothesis f_games : ∀ g w, f (set_games g w) = f w.
Hypothesis f_json : ∀ data w, f (set_games_json data w) = f w.
Hypothesis f_save : ∀ w, f (count_save w) = f w.

Lemma keeps_store_game (id : string) (game : Game) : keeps f (store_game id game).
Proof. intros w. apply f_games. Qed.

Lemma keeps_SaveGames : keeps f SaveGames.
Proof.
  unfold SaveGames.
  apply keeps_bind; [intros w; apply f_save|intros ?].
  apply keeps_bind; [apply keeps_gets|intros ?].
  apply keeps_bind; [apply keeps_lift|intros ?].
  apply keeps_bind; [apply keeps_lift|intros data].
  intros w. unfold WriteFile. destruct (disk_fails w); simpl; [|apply f_json].
  destruct (failed_write data); [apply f_json|done].
Qed.

Lemma keeps_Broadcast_HandleMove (wsMsg : WebsocketMessage) (client : Client) :
  keeps f (Broadcast.HandleMove wsMsg client).
Proof.
  unfold Broadcast.HandleMove.
  apply keeps_bind; [apply keeps_lift|intros move].
  apply keeps_bind; [apply keeps_gets|intros [game|]]; [|apply keeps_fail].
  destruct (Game_MoveStr (Game_ game) (mm_Move move)) as [g err].
  apply keeps_bind; [apply keeps_store_game|intros ?].
  destruct err as [e|]; [apply keeps_fail|].
  apply keeps_bind; [apply keeps_SaveGames|intros ?].
  apply (keeps_after_commit_broadcast (with_chess game g)).
Qed.

Lemma keeps_OpponentOnly_HandleMove (wsMsg : WebsocketMessage) (client : Client) :
  keeps f (OpponentOnly.HandleMove wsMsg client).
Proof.
  unfold OpponentOnly.HandleMove.
  apply keeps_bind; [apply keeps_lift|intros move].
  apply keeps_bind; [apply keeps_gets|intros [game|]]; [|apply keeps_fail].
  destruct (OpponentOnly.find_and_move _ _ _) as [[g err] moved].
  apply keeps_bind; [apply keeps_store_game|intros ?].
  destruct err as [e|]; [apply keeps_fail|].
  destruct moved; simpl; [|apply keeps_fail].
  apply keeps_bind; [apply keeps_SaveGames|intros ?].
  apply (keeps_after_commit_opponent (with_chess game g)).
Qed.

Lemma keeps_Broadcast_HandleJoin (wsMsg : WebsocketMessage) (client : Client) :
  keeps f (Broadcast.HandleJoin wsMsg client).
Proof.
  unfold Broadcast.HandleJoin.
  apply keeps_bind; [apply keeps_lift|intros join].
  apply keeps_bind; [apply keeps_gets|intros [game|]]; [|apply keeps_fail].
  repeat (apply keeps_bind;
          [first [apply keeps_lift|apply keeps_WriteMessage]|intros ?]).
  apply keeps_WriteMessage.
Qed.

Lemma keeps_OpponentOnly_HandleJoin (wsMsg : WebsocketMessage) (client : Client) :
  keeps f (OpponentOnly.HandleJoin wsMsg client).
Proof.
  unfold OpponentOnly.HandleJoin.
  apply keeps_bind; [apply keeps_lift|intros join].
  apply keeps_bind; [apply keeps_gets|intros [game|]]; [|apply keeps_fail].
  apply keeps_bind; [apply keeps_lift|intros ?].
  apply keeps_WriteMessage.
Qed.

Lemma keeps_Broadcast_dispatch (wsMsg : WebsocketMessage) (client : Client) (w : World) :
  f (Broadcast.dispatch wsMsg client w) = f w.
Proof.
  unfold Broadcast.dispatch. repeat case_decide; try done.
  - pose proof (keeps_Broadcast_HandleJoin wsMsg client w) as Hk.
    destruct (Broadcast.HandleJoin wsMsg client w) as [[?|e] w1]; simpl in *;
      [done|by rewrite f_stdout].
  - pose proof (keeps_Broadcast_HandleMove wsMsg client w) as Hk.
    destruct (Broadcast.HandleMove wsMsg client w) as [[?|e] w1]; simpl in *;
      [done|by rewrite f_stdout].
Qed.

Lemma keeps_OpponentOnly_dispatch (wsMsg : WebsocketMessage) (client : Client) (w : World) :
  f (OpponentOnly.dispatch wsMsg client w) = f w.
Proof.
  unfold OpponentOnly.dispatch. repeat case_decide; try done.
  - pose proof (keeps_OpponentOnly_HandleJoin wsMsg client w) as Hk.
    destruct (OpponentOnly.HandleJoin wsMsg client w) as [[?|e] w1]; simpl in *;
      [done|by rewrite f_stdout].
  - pose proof (keeps_OpponentOnly_HandleMove wsMsg client w) as Hk.
    destruct (OpponentOnly.HandleMove wsMsg client w) as [[?|e] w1]; simpl in *;
      [done|by rewrite f_stdout].
Qed.

End Keeps.

Section Authorization.
Context `{Eng : RulesEngine} `{Js : Json} `{Rt : Runtime}.
Context {B : Type} (f : World → B).

Lemma agree_on_refl {A} (m : M A) : agree_on f m m.
Proof. by intros w. Qed.

Lemma agree_on_keeps {A} (m1 m2 : M A) :
  keeps f m1 → keeps f m2 → agree_on f m1 m2.
Proof. intros H1 H2 w. by rewrite H1, H2. Qed.

Lemma agree_on_bind {A C} (m : M A) (k1 k2 : A → M C) :
  (∀ a, agree_on f (k1 a) (k2 a)) → agree_on f (m ≫= k1) (m ≫= k2).
Proof.
  intros Hk w. unfold mbind, M_bind.
  destruct (m w) as [[a|e] w1]; [apply Hk|done].
Qed.

End Authorization.

Section AuthorizationClaim.
Context `{Eng : RulesEngine} `{Js : Json} `{Rt : Runtime}.

Lemma store_of_sent conn data (w : World) : store_of (add_sent conn data w) = store_of w.
Proof. done. Qed.

Lemma store_of_stdout line (w : World) : store_of (add_stdout line w) = store_of w.
Proof. done. Qed.

(** C2, as the code has it.  Neither move handler looks at who submits:
    from the same world and the same envelope, two clients leave the same
    session store, the same snapshot file and the same number of
    [SaveGames] calls behind.  What decides is the move string alone. *)
Theorem C2_acceptance_ignores_the_submitter
    (wsMsg : WebsocketMessage) (client1 client2 : Client) (w : World) :
  store_of (Broadcast.HandleMove wsMsg client1 w).2
  = store_of (Broadcast.HandleMove wsMsg client2 w).2
  ∧ store_of (OpponentOnly.HandleMove wsMsg client1 w).2
    = store_of (OpponentOnly.HandleMove wsMsg client2 w).2.
Proof.
  split; revert w.
  - change (agree_on store_of (Broadcast.HandleMove wsMsg client1)
                              (Broadcast.HandleMove wsMsg client2)).
    unfold Broadcast.HandleMove.
    apply agree_on_bind; intros move.
    apply agree_on_bind; intros [game|]; [|apply agree_on_refl].
    destruct (Game_MoveStr (Game_ game) (mm_Move move)) as [g err].
    apply agree_on_bind; intros _.
    destruct err as [e|]; [apply agree_on_refl|].
    apply agree_on_bind; intros _.
    apply agree_on_keeps;
      apply (keeps_after_commit_broadcast store_of store_of_sent store_of_stdout
               (with_chess game g)).
  - change (agree_on store_of (OpponentOnly.HandleMove wsMsg client1)
                              (OpponentOnly.HandleMove wsMsg client2)).
    unfold OpponentOnly.HandleMove.
    apply agree_on_bind; intros move.
    apply agree_on_bind; intros [game|]; [|apply agree_on_refl].
    destruct (OpponentOnly.find_and_move _ _ _) as [[g err] moved].
    apply agree_on_bind; intros _.
    destruct err as [e|]; [apply agree_on_refl|].
    destruct moved; simpl; [|apply agree_on_refl].
    apply agree_on_bind; intros _.
    apply agree_on_keeps;
      apply (keeps_after_commit_opponent store_of store_of_sent store_of_stdout
               (with_chess game g)).
Qed.

End AuthorizationClaim.

(** C2, as the claim has it, fails.  From the starting position of the
    session between alice (White) and bob (Black), the opening move
    e2e4 is accepted, applied and written to the snapshot when it comes
    from mallory, who plays in no session, and when it comes from bob,
    who is not to move; both variants do so. *)
Lemma C2_counterexample :
  let wsMsg := {| ws_Type := "move"; ws_Payload := "g1,w,e2e4" |} in
  let mallory := {| ID := "mallory"; Conn := 7 |} in
  let bob := {| ID := "bob"; Conn := 2 |} in
  let turn_after (rw : result unit * World) :=
    (λ game, Position_Turn (Game_Position (Game_ game))) <$> games rw.2 !! "g1" in
  WhitePlayerId Toy.fresh_game = "alice"
  ∧ BlackPlayerId Toy.fresh_game = "bob"
  ∧ Position_Turn (Game_Position (Game_ Toy.fresh_game)) = White
  ∧ (Broadcast.HandleMove wsMsg mallory Toy.one_game).1 = Ok ()
  ∧ turn_after (Broadcast.HandleMove wsMsg mallory Toy.one_game) = Some Black
  ∧ games_json (Broadcast.HandleMove wsMsg mallory Toy.one_game).2
    = Some "g1,alice,bob,e2e4"
  ∧ (OpponentOnly.HandleMove wsMsg mallory Toy.one_game).1 = Ok ()
  ∧ turn_after (OpponentOnly.HandleMove wsMsg mallory Toy.one_game) = Some Black
  ∧ games_json (OpponentOnly.HandleMove wsMsg mallory Toy.one_game).2
    = Some "g1,alice,bob,e2e4"
  ∧ (Broadcast.HandleMove wsMsg bob Toy.one_game).1 = Ok ()
  ∧ turn_after (Broadcast.HandleMove wsMsg bob Toy.one_game) = Some Black
  ∧ (OpponentOnly.HandleMove wsMsg bob Toy.one_game).1 = Ok ()
  ∧ turn_after (OpponentOnly.HandleMove wsMsg bob Toy.one_game) = Some Black.
Proof. repeat split; vm_compute; reflexivity. Qed.

(** ** The connection loop *)

Section ConnectionLoop.
Context `{Eng : RulesEngine} `{Js : Json} `{Rt : Runtime}.

Lemma registry_of_sent conn data (w : World) :
  registry_of (add_sent conn data w) = registry_of w.
Proof. done. Qed.

Lemma registry_of_stdout line (w : World) :
  registry_of (add_stdout line w) = registry_of w.
Proof. done. Qed.

Lemma registry_of_games g (w : World) : registry_of (set_games g w) = registry_of w.
Proof. done. Qed.

Lemma registry_of_json data (w : World) :
  registry_of (set_games_json data w) = registry_of w.
Proof. done. Qed.

Lemma registry_of_save (w : World) : registry_of (count_save w) = registry_of w.
Proof. done. Qed.

(** The prologue appends the new client, whether the greeting can be
    written or not, and closes nothing. *)
Lemma WsHandler_hello_registry (newClient : Client) (w : World) :
  registry_of (WsHandler_hello newClient w).2
  = (connectedClients w ++ [newClient], closed w).
Proof.
  unfold WsHandler_hello, register, mbind, M_bind, modify, lift. simpl.
  destruct (encode_envelope _ _); simpl; [|done].
  unfold WriteMessage. by case_decide.
Qed.

(** The broadcast loop [continue]s where the decoding of the envelope
    fails. *)
Lemma Broadcast_loop_skips_malformed (newClient : Client) (bad : string) (e : error)
    (reads : list (result string)) (w : World) :
  Unmarshal_WebsocketMessage bad = Err e →
  Broadcast.WsHandler_loop newClient (Ok bad :: reads) w
  = Broadcast.WsHandler_loop newClient reads w.
Proof. intros Hbad. simpl. by rewrite Hbad. Qed.

(** On a failed connection the loop turns until [conn.ReadMessage]
    panics, and changes nothing on the way: the calls that are allowed
    are enough to get there. *)
Lemma reads_on_failed_connection_panics (calls readErrCount : nat) (w : World) :
  (0 < calls)%nat →
  (readErrLimit ≤ readErrCount + calls)%nat →
  Broadcast.reads_on_failed_connection calls readErrCount w = (Some repeated_read, w).
Proof.
  revert readErrCount. induction calls as [|calls IH]; intros n Hpos Hle; [lia|].
  change (Broadcast.reads_on_failed_connection (S calls) n w)
    with (if decide (readErrLimit ≤ S n)%nat then (Some repeated_read, w)
          else Broadcast.reads_on_failed_connection calls (S n) w).
  case_decide; [done|]. apply IH; lia.
Qed.

(** The broadcast loop [continue]s where a read fails, reads the same
    error again and again, and is unwound by the panic of the read that
    comes last; what the connection would have delivered is not read. *)
Lemma Broadcast_loop_panics_on_read_error (newClient : Client) (e : error)
    (reads : list (result string)) (w : World) :
  Broadcast.WsHandler_loop newClient (Err e :: reads) w = (Some repeated_read, w).
Proof.
  cbn [Broadcast.WsHandler_loop].
  apply reads_on_failed_connection_panics; unfold readErrLimit; lia.
Qed.

(** Nothing the broadcast loop runs touches the registry or closes a
    connection. *)
Lemma Broadcast_loop_registry (newClient : Client) (reads : list (result string))
    (w : World) :
  registry_of (Broadcast.WsHandler_loop newClient reads w).2 = registry_of w.
Proof.
  revert w. induction reads as [|[msg|e] reads IH]; intros w; [done| |].
  - cbn [Broadcast.WsHandler_loop].
    destruct (Unmarshal_WebsocketMessage msg) as [wsMsg|e]; [|apply IH].
    rewrite IH.
    apply (keeps_Broadcast_dispatch registry_of);
      auto using registry_of_sent, registry_of_stdout, registry_of_games,
                 registry_of_json, registry_of_save.
  - by rewrite Broadcast_loop_panics_on_read_error.
Qed.

(** While every read succeeds the broadcast loop stays in: it waits for
    the next message. *)
Lemma Broadcast_loop_waits (newClient : Client) (reads : list (result string))
    (w : World) :
  Forall (λ r, ∃ msg, r = Ok msg) reads →
  (Broadcast.WsHandler_loop newClient reads w).1 = None.
Proof.
  intros Hall. revert w. induction Hall as [|r reads [msg ->] _ IH]; intros w; [done|].
  cbn [Broadcast.WsHandler_loop].
  destruct (Unmarshal_WebsocketMessage msg); apply IH.
Qed.

(** After any number of reads that succeed, whatever they carry, the
    first read that fails gets the broadcast loop unwound. *)
Lemma Broadcast_loop_unwinds_on_read_error (newClient : Client)
    (msgs : list (result string)) (e : error) (rest : list (result string))
    (w : World) :
  Forall (λ r, ∃ msg, r = Ok msg) msgs →
  (Broadcast.WsHandler_loop newClient (msgs ++ Err e :: rest) w).1
  = Some repeated_read.
Proof.
  intros Hall. revert w. induction Hall as [|r msgs [msg ->] _ IH]; intros w.
  - simpl app. by rewrite Broadcast_loop_panics_on_read_error.
  - simpl app. cbn [Broadcast.WsHandler_loop].
    destruct (Unmarshal_WebsocketMessage msg); apply IH.
Qed.

(** The opponent-only loop [break]s on a read failure: the deferred
    function runs once and the handler returns. *)
Lemma OpponentOnly_read_error_tears_down (conn : nat) (id : string) (e : error)
    (reads : list (result string)) (w w1 : World) :
  WsHandler_hello {| ID := id; Conn := conn |} w = (Ok (), w1) →
  OpponentOnly.WsHandler (Ok conn) id (Err e :: reads) w
  = (Returned None,
     add_closed conn (set_connectedClients (remove_first_by_ID id) w1)).
Proof. intros Hhello. unfold OpponentOnly.WsHandler. by rewrite Hhello. Qed.

(** The deferred function takes one entry of the identity out of the
    registry when there is one. *)
Lemma remove_first_by_ID_length (id : string) (clients : list Client) :
  id ∈ ID <$> clients →
  S (length (remove_first_by_ID id clients)) = length clients.
Proof.
  induction clients as [|client rest IH]; simpl; [by intros ?%elem_of_nil|].
  intros Hin. case_decide; [done|]. simpl. f_equal. apply IH.
  apply elem_of_cons in Hin as [Heq|Hin]; [congruence|done].
Qed.

(** C5, where the code departs from it.  In the opponent-only variant an
    envelope that fails to decode ends the processing loop: the handler
    runs its deferred teardown and returns, and whatever the connection
    would have delivered next, a well-formed join included, is never
    read. *)
Theorem C5_opponent_only_malformed_envelope_ends_the_loop
    (conn : nat) (id : string) (bad : string) (e : error)
    (rest : list (result string)) (w w1 : World) :
  WsHandler_hello {| ID := id; Conn := conn |} w = (Ok (), w1) →
  Unmarshal_WebsocketMessage bad = Err e →
  OpponentOnly.WsHandler (Ok conn) id (Ok bad :: rest) w
  = (Returned None,
     add_closed conn (set_connectedClients (remove_first_by_ID id) w1)).
Proof.
  intros Hhello Hbad. unfold OpponentOnly.WsHandler. rewrite Hhello. simpl.
  by rewrite Hbad.
Qed.

(** C7, as the code has it.  Registration appends: after a connection
    has registered, the registry is the one before with the new entry at
    its end, so the identity has one entry more than it had. *)
Theorem C7_registration_appends (conn : nat) (id : string) (w : World) :
  let newClient := {| ID := id; Conn := conn |} in
  let count (cs : list Client) := length (filter (λ c, ID c = id) cs) in
  (connectedClients (Broadcast.WsHandler (Ok conn) id [] w).2
   = connectedClients w ++ [newClient]
   ∧ connectedClients (OpponentOnly.WsHandler (Ok conn) id [] w).2
     = connectedClients w ++ [newClient])
  ∧ count (connectedClients w ++ [newClient]) = S (count (connectedClients w)).
Proof.
  intros newClient count. split.
  - pose proof (WsHandler_hello_registry newClient w) as Hreg.
    unfold Broadcast.WsHandler, OpponentOnly.WsHandler. fold newClient.
    destruct (WsHandler_hello newClient w) as [[[]|e] w1]; simpl in *;
      injection Hreg as Hreg _; by rewrite Hreg.
  - unfold count. rewrite filter_app, length_app. simpl.
    rewrite filter_cons_True by done. simpl. lia.
Qed.

(** An envelope that decodes never ends a loop, whatever its handler
    returns. *)
Lemma decoded_envelope_goes_on (newClient : Client) (msg : string)
    (wsMsg : WebsocketMessage) (reads : list (result string)) (w : World) :
  Unmarshal_WebsocketMessage msg = Ok wsMsg →
  Broadcast.WsHandler_loop newClient (Ok msg :: reads) w
  = Broadcast.WsHandler_loop newClient reads (Broadcast.dispatch wsMsg newClient w)
  ∧ OpponentOnly.WsHandler_loop newClient (Ok msg :: reads) w
    = OpponentOnly.WsHandler_loop newClient reads (OpponentOnly.dispatch wsMsg newClient w).
Proof. intros Hmsg. simpl. by rewrite Hmsg. Qed.

(** The opponent-only variant, after any number of envelopes that
    decode, leaves the loop at the first failed read with the registry
    and the closed connections as the greeting left them. *)
Lemma OpponentOnly_loop_leaves_on_read_error (newClient : Client)
    (envelopes : list (result string)) (e : error) (rest : list (result string))
    (w : World) :
  Forall (λ r, ∃ msg wsMsg, r = Ok msg ∧ Unmarshal_WebsocketMessage msg = Ok wsMsg)
         envelopes →
  (OpponentOnly.WsHandler_loop newClient (envelopes ++ Err e :: rest) w).1 = true
  ∧ registry_of (OpponentOnly.WsHandler_loop newClient (envelopes ++ Err e :: rest) w).2
    = registry_of w.
Proof.
  intros Hall. revert w. induction Hall as [|r envelopes (msg & wsMsg & -> & Hmsg) _ IH];
    intros w; [done|].
  simpl. rewrite Hmsg.
  destruct (IH (OpponentOnly.dispatch wsMsg newClient w)) as [Hflag Hreg].
  split; [done|]. rewrite Hreg.
  apply (keeps_OpponentOnly_dispatch registry_of);
    auto using registry_of_sent, registry_of_stdout, registry_of_games,
               registry_of_json, registry_of_save.
Qed.

(** Nothing the opponent-only loop runs touches the registry or closes a
    connection either. *)
Lemma OpponentOnly_loop_registry (newClient : Client) (reads : list (result string))
    (w : World) :
  registry_of (OpponentOnly.WsHandler_loop newClient reads w).2 = registry_of w.
Proof.
  revert w. induction reads as [|[msg|e] reads IH]; intros w; [done| |done].
  cbn [OpponentOnly.WsHandler_loop].
  destruct (Unmarshal_WebsocketMessage msg) as [wsMsg|e]; [|done].
  rewrite IH.
  apply (keeps_OpponentOnly_dispatch registry_of);
    auto using registry_of_sent, registry_of_stdout, registry_of_games,
               registry_of_json, registry_of_save.
Qed.

(** While every read succeeds and decodes, a [leave] envelope among them
    or not, the opponent-only loop stays in. *)
Lemma OpponentOnly_loop_waits (newClient : Client) (envelopes : list (result string))
    (w : World) :
  Forall (λ r, ∃ msg wsMsg, r = Ok msg ∧ Unmarshal_WebsocketMessage msg = Ok wsMsg)
         envelopes →
  (OpponentOnly.WsHandler_loop newClient envelopes w).1 = false.
Proof.
  intros Hall. revert w.
  induction Hall as [|r envelopes (msg & wsMsg & -> & Hmsg) _ IH]; intros w; [done|].
  cbn [OpponentOnly.WsHandler_loop]. rewrite Hmsg. apply IH.
Qed.

(** So there the handler returns, its own entry (or an earlier one of
    the same identity) is out of the registry, and its connection is
    closed, whatever the handlers of the envelopes returned. *)
Lemma OpponentOnly_teardown_on_read_error (conn : nat) (id : string)
    (envelopes : list (result string)) (e : error) (rest : list (result string))
    (w w1 : World) :
  WsHandler_hello {| ID := id; Conn := conn |} w = (Ok (), w1) →
  Forall (λ r, ∃ msg wsMsg, r = Ok msg ∧ Unmarshal_WebsocketMessage msg = Ok wsMsg)
         envelopes →
  ∃ w2, OpponentOnly.WsHandler (Ok conn) id (envelopes ++ Err e :: rest) w
        = (Returned None, w2)
        ∧ connectedClients w2
          = remove_first_by_ID id (connectedClients w ++ [{| ID := id; Conn := conn |}])
        ∧ closed w2 = closed w ++ [conn].
Proof.
  intros Hhello Hall. unfold OpponentOnly.WsHandler. rewrite Hhello.
  destruct (OpponentOnly_loop_leaves_on_read_error {| ID := id; Conn := conn |}
              envelopes e rest w1 Hall) as [Hflag Hreg].
  destruct (OpponentOnly.WsHandler_loop _ _ w1) as [exited w2].
  simpl in Hflag, Hreg. subst exited.
  pose proof (WsHandler_hello_registry {| ID := id; Conn := conn |} w) as Hw1.
  rewrite Hhello in Hw1. simpl in Hw1. rewrite <- Hreg in Hw1.
  injection Hw1 as Hclients Hclosed.
  eexists. split; [reflexivity|]. simpl. by rewrite Hclients, Hclosed.
Qed.

End ConnectionLoop.

Lemma C5_witness :
  OpponentOnly.WsHandler (Ok 1%nat) "alice" [Ok "not json"; Ok "join|g1"] Toy.one_game
  = (Returned None,
     add_closed 1 (set_connectedClients (remove_first_by_ID "alice")
                     (WsHandler_hello {| ID := "alice"; Conn := 1 |} Toy.one_game).2)).
Proof.
  apply (C5_opponent_only_malformed_envelope_ends_the_loop 1 "alice" "not json"
           "json: cannot unmarshal into WebsocketMessage").
  - reflexivity.
  - reflexivity.
Defined.

(** C7, as the claim has it, fails: two connections that register under
    the identity alice leave two entries for alice, in both variants. *)
Lemma C7_counterexample :
  let alice1 := {| ID := "alice"; Conn := 1 |} in
  let alice2 := {| ID := "alice"; Conn := 2 |} in
  connectedClients
    (Broadcast.WsHandler (Ok 2%nat) "alice" []
       (Broadcast.WsHandler (Ok 1%nat) "alice" [] Toy.empty_world).2).2
  = [alice1; alice2]
  ∧ connectedClients
      (OpponentOnly.WsHandler (Ok 2%nat) "alice" []
         (OpponentOnly.WsHandler (Ok 1%nat) "alice" [] Toy.empty_world).2).2
    = [alice1; alice2].
Proof. split; vm_compute; reflexivity. Qed.

(** A [leave] envelope leaves the [switch] and nothing else: in both
    variants the loop goes on to the next read. *)
Lemma leave_does_not_end_the_loop `{RulesEngine} `{Json} `{Runtime}
    (newClient : Client) (msg : string) (wsMsg : WebsocketMessage)
    (reads : list (result string)) (w : World) :
  Unmarshal_WebsocketMessage msg = Ok wsMsg →
  ws_Type wsMsg = "leave" →
  Broadcast.WsHandler_loop newClient (Ok msg :: reads) w
  = Broadcast.WsHandler_loop newClient reads w
  ∧ OpponentOnly.WsHandler_loop newClient (Ok msg :: reads) w
    = OpponentOnly.WsHandler_loop newClient reads w.
Proof.
  intros Hmsg Hleave. simpl. rewrite Hmsg.
  unfold Broadcast.dispatch, OpponentOnly.dispatch.
  by rewrite !decide_True by done.
Qed.

(** In the broadcast variant the join that follows a malformed envelope
    is answered: after the greeting the connection is sent the four
    messages of [HandleJoin]. *)
Example Broadcast_join_after_malformed_envelope :
  let '(status, w) :=
    Broadcast.WsHandler (Ok 1%nat) "alice" [Ok "not json"; Ok "join|g1"] Toy.one_game in
  status = Waiting ∧ length (sent w) = 5%nat ∧ stdout w = [].
Proof. vm_compute. done. Qed.

(** ** Start-up and session creation *)

Section Startup.
Context `{Eng : RulesEngine} `{Js : Json} `{Rt : Runtime}.


Lemma SaveGames_games (w : World) : games (SaveGames w).2 = games w.
Proof.
  apply (keeps_SaveGames games); done.
Qed.

(** C8, where the code departs from it.  [rand.IntN(n)] draws from
    [0, n), and [main.go] calls it with [1 - 0]: the draw is 0 every
    time, so a request that leaves the colour open makes player1 White
    and player2 Black whatever the random source does. *)
Theorem C8_open_colour_always_gives_player1_white
    (IntN : Z → Z) (id : string) (request : CreateGameRequest)
    (fen : GameOption) (w : World) :
  (∀ n, 0 < n → 0 ≤ IntN n < n) →
  PreferredColor request = "" →
  FEN startingFEN = Ok fen →
  games (Broadcast.PostGame IntN id (Ok request) w).2 !! id
  = Some {| WhitePlayerId := Player1 request; BlackPlayerId := Player2 request;
            Game_ := NewGame [fen; UseNotation UCINotation] |}
  ∧ games (OpponentOnly.PostGame IntN id (Ok request) w).2 !! id
    = Some {| WhitePlayerId := Player1 request; BlackPlayerId := Player2 request;
              Game_ := NewGame [fen; UseNotation LongAlgebraicNotation] |}.
Proof.
  intros Hrand Hopen Hfen.
  assert (Hdraw : IntN (1 - 0) + 0 = 0) by (specialize (Hrand (1 - 0)); lia).
  assert (Hcolors : ∀ game,
            assign_colors IntN request game
            = {| WhitePlayerId := Player1 request; BlackPlayerId := Player2 request;
                 Game_ := game |}).
  { intros game. unfold assign_colors. rewrite Hopen, Hdraw.
    by rewrite !decide_False, decide_True by done. }
  unfold Broadcast.PostGame, OpponentOnly.PostGame, PostGame_with.
  rewrite Hfen, !Hcolors.
  split.
  - pose proof (SaveGames_games
                  (set_games (λ gs, <[id := {| WhitePlayerId := Player1 request;
                                               BlackPlayerId := Player2 request;
                                               Game_ := NewGame [fen; UseNotation UCINotation] |}]> gs) w))
      as Hsave.
    destruct (SaveGames _) as [[[]|e] w1]; simpl in *;
      rewrite Hsave; apply lookup_insert_eq.
  - pose proof (SaveGames_games
                  (set_games (λ gs, <[id := {| WhitePlayerId := Player1 request;
                                               BlackPlayerId := Player2 request;
                                               Game_ := NewGame [fen; UseNotation LongAlgebraicNotation] |}]> gs) w))
      as Hsave.
    destruct (SaveGames _) as [[[]|e] w1]; simpl in *;
      rewrite Hsave; apply lookup_insert_eq.
Qed.

End Startup.



Lemma C8_witness :
  let request := {| Player1 := "A"; Player2 := "B"; PreferredColor := "" |} in
  games (Broadcast.PostGame (λ _, 0) "g9" (Ok request) Toy.empty_world).2 !! "g9"
  = Some {| WhitePlayerId := "A"; BlackPlayerId := "B";
            Game_ := NewGame [Toy.OptPosition Toy.starting_position;
                              UseNotation UCINotation] |}
  ∧ games (OpponentOnly.PostGame (λ _, 0) "g9" (Ok request) Toy.empty_world).2 !! "g9"
    = Some {| WhitePlayerId := "A"; BlackPlayerId := "B";
              Game_ := NewGame [Toy.OptPosition Toy.starting_position;
                                UseNotation LongAlgebraicNotation] |}.
Proof.
  intros request.
  apply (@C8_open_colour_always_gives_player1_white Toy.engine Toy.json Toy.runtime
           (λ _, 0) "g9" request (Toy.OptPosition Toy.starting_position)
           Toy.empty_world).
  - intros n Hn. lia.
  - reflexivity.
  - reflexivity.
Defined.

(** ** The views sent to the clients *)

Section LegalMoveView.
Context `{Eng : RulesEngine} `{Js : Json} `{Rt : Runtime}.

Lemma foldl_snoc_fmap {A C} (h : A → C) (l : list A) (acc : list C) :
  foldl (λ acc x, acc ++ [h x]) acc l = acc ++ (h <$> l).
Proof.
  revert acc. induction l as [|x l IH]; intros acc; simpl.
  - by rewrite app_nil_r.
  - by rewrite IH, <- app_assoc.
Qed.

Lemma GeneratePossibleMovesMessage_off_turn (game : Game) (gameId r : string) :
  ¬ on_turn game r →
  Broadcast.GeneratePossibleMovesMessage game gameId r
  = possibleMoves_envelope gameId [].
Proof.
  intros Hoff. unfold Broadcast.GeneratePossibleMovesMessage.
  case_decide; [done|]. case_decide; [done|].
  exfalso. apply Hoff. unfold on_turn.
  destruct (Position_Turn (Game_Position (Game_ game))).
  - left. split; [done|].
    destruct (decide (WhitePlayerId game = r)); [done|]. tauto.
  - right. split; [done|].
    destruct (decide (BlackPlayerId game = r)); [done|]. tauto.
Qed.

Lemma GeneratePossibleMovesMessage_on_turn (game : Game) (gameId r : string) :
  on_turn game r →
  Broadcast.GeneratePossibleMovesMessage game gameId r
  = possibleMoves_envelope gameId (legal_moves game).
Proof.
  intros Hon. unfold Broadcast.GeneratePossibleMovesMessage.
  rewrite foldl_snoc_fmap. simpl.
  destruct Hon as [[Hturn Hid]|[Hturn Hid]].
  - rewrite decide_False by tauto.
    rewrite decide_False; [done|]. rewrite Hturn. intros [? _]. done.
  - rewrite decide_False; [|rewrite Hturn; intros [? _]; done].
    rewrite decide_False by tauto. done.
Qed.

Lemma encode_envelope_total (type : string) (payload : Marshalled) :
  Marshal_total → ∃ data, encode_envelope type payload = Ok data.
Proof.
  intros Htotal. unfold encode_envelope.
  destruct (Htotal payload) as [data ->]. simpl. apply Htotal.
Qed.

(** C9.  A requester who does not control the side to move is sent the
    empty move list, and this is a message, not an error, as
    [json.Marshal] does not fail on it.  The requester who controls the
    side to move is sent every legal move of the position, and that list
    is not empty while the game has no outcome, the engine recording a
    position without moves as an outcome. *)
Theorem C9_legal_move_view (game : Game) (gameId r : string) :
  (¬ on_turn game r →
   Broadcast.GeneratePossibleMovesMessage game gameId r
   = possibleMoves_envelope gameId []
   ∧ (Marshal_total →
      ∃ data, Broadcast.GeneratePossibleMovesMessage game gameId r = Ok data))
  ∧ (on_turn game r →
     Outcome_tracks_moves →
     Game_Outcome (Game_ game) = NoOutcome →
     legal_moves game ≠ []
     ∧ Broadcast.GeneratePossibleMovesMessage game gameId r
       = possibleMoves_envelope gameId (legal_moves game)).
Proof.
  split.
  - intros Hoff. rewrite (GeneratePossibleMovesMessage_off_turn _ _ _ Hoff).
    split; [done|]. apply encode_envelope_total.
  - intros Hon Hengine Hnone. split.
    + unfold legal_moves. intros Hnil. apply fmap_nil_inv in Hnil.
      by apply (Hengine (Game_ game)).
    + by apply GeneratePossibleMovesMessage_on_turn.
Qed.

End LegalMoveView.

Lemma toy_Outcome_tracks_moves : @Outcome_tracks_moves Toy.engine.
Proof. intros g. simpl. by destruct (Toy.valid_moves (Toy.pos g)). Qed.

Lemma toy_Marshal_total : @Marshal_total Toy.json.
Proof. intros v. by eexists. Qed.

Lemma C9_witness :
  (Broadcast.GeneratePossibleMovesMessage Toy.fresh_game "g1" "bob"
   = possibleMoves_envelope "g1" []
   ∧ ∃ data, Broadcast.GeneratePossibleMovesMessage Toy.fresh_game "g1" "bob" = Ok data)
  ∧ legal_moves Toy.fresh_game ≠ []
  ∧ Broadcast.GeneratePossibleMovesMessage Toy.fresh_game "g1" "alice"
    = possibleMoves_envelope "g1" (legal_moves Toy.fresh_game).
Proof.
  split.
  - destruct (proj1 (C9_legal_move_view Toy.fresh_game "g1" "bob")) as [Hempty Hok].
    + intros [[_ Hid]|[Hturn _]]; [vm_compute in Hid|vm_compute in Hturn]; congruence.
    + split; [exact Hempty|]. apply Hok, toy_Marshal_total.
  - apply (proj2 (C9_legal_move_view Toy.fresh_game "g1" "alice")).
    + left. split; reflexivity.
    + apply toy_Outcome_tracks_moves.
    + reflexivity.
Defined.

Section CapturedView.
Context `{Eng : RulesEngine} `{Js : Json} `{Rt : Runtime}.

Lemma zeroCount_lookup (pt : PieceType) : Broadcast.zeroCount !!! pt = 0.
Proof. by destruct pt. Qed.

Lemma increment_lookup (pt pt' : PieceType) (current : gmap PieceType Z) :
  Broadcast.increment pt' current !!! pt
  = current !!! pt + (if decide (pt = pt') then 1 else 0).
Proof.
  unfold Broadcast.increment. case_decide as Heq.
  - subst. by rewrite lookup_total_insert_eq.
  - rewrite lookup_total_insert_ne by done. lia.
Qed.

(** The scan of the board counts, per colour and piece type, the squares
    that hold such a piece. *)
Lemma count_pieces_fold (board : ChessBoard) (squares : list Square)
    (white0 black0 : gmap PieceType Z) (pt : PieceType) :
  let step := λ '(whiteCurrent, blackCurrent) sq,
                match Board_Piece board sq with
                | NoPiece => (whiteCurrent, blackCurrent)
                | NewPiece pt c =>
                    if decide (c = White)
                    then (Broadcast.increment pt whiteCurrent, blackCurrent)
                    else (whiteCurrent, Broadcast.increment pt blackCurrent)
                end in
  let count c :=
    Z.of_nat (length (filter (λ sq, Board_Piece board sq = NewPiece pt c) squares)) in
  (foldl step (white0, black0) squares).1 !!! pt = white0 !!! pt + count White
  ∧ (foldl step (white0, black0) squares).2 !!! pt = black0 !!! pt + count Black.
Proof.
  intros step count. subst step count. revert white0 black0.
  induction squares as [|sq squares IH]; intros white0 black0.
  - simpl. split; lia.
  - cbn [foldl]. rewrite !filter_cons.
    destruct (Board_Piece board sq) as [|pt' c] eqn:Hsq.
    + rewrite !decide_False by done. apply IH.
    + destruct c.
      * rewrite (decide_True (P := White = White)) by done.
        destruct (IH (Broadcast.increment pt' white0) black0) as [-> ->].
        rewrite increment_lookup.
        rewrite (decide_False (P := NewPiece pt' White = NewPiece pt Black)) by done.
        destruct (decide (pt = pt')) as [->|Hne].
        -- rewrite decide_True by done. cbn [length]. split; lia.
        -- rewrite decide_False by congruence. split; lia.
      * rewrite (decide_False (P := Black = White)) by done.
        destruct (IH white0 (Broadcast.increment pt' black0)) as [-> ->].
        rewrite increment_lookup.
        rewrite (decide_False (P := NewPiece pt' Black = NewPiece pt White)) by done.
        destruct (decide (pt = pt')) as [->|Hne].
        -- rewrite decide_True by done. cbn [length]. split; lia.
        -- rewrite decide_False by congruence. split; lia.
Qed.

Lemma count_pieces_on_board (board : ChessBoard) (pt : PieceType) :
  (Broadcast.count_pieces board).1 !!! pt = on_board board White pt
  ∧ (Broadcast.count_pieces board).2 !!! pt = on_board board Black pt.
Proof.
  unfold Broadcast.count_pieces, on_board.
  destruct (count_pieces_fold board (seqZ A1 (H8 - A1 + 1))
              Broadcast.zeroCount Broadcast.zeroCount pt) as [Hw Hb].
  rewrite zeroCount_lookup in Hw, Hb. split; [rewrite Hw|rewrite Hb]; apply Z.add_0_l.
Qed.

(** [range] visits every key once, and the entries it visits make up
    the map. *)
Lemma range_NoDup `{!RuntimeOk} {K} `{Countable K} {V} (m : gmap K V) :
  NoDup (range m).*1.
Proof. rewrite range_perm. apply NoDup_fst_map_to_list. Qed.

Lemma range_list_to_map `{!RuntimeOk} {K} `{Countable K} {V} (m : gmap K V) :
  list_to_map (range m) = m.
Proof.
  rewrite <- (list_to_map_to_list m) at 2.
  apply list_to_map_proper; [apply range_NoDup|apply range_perm].
Qed.

(** A loop that stores [g k v] under [k] for every entry of a list
    without repeated keys. *)
Lemma foldl_insert_lookup {K} `{Countable K} {V W} (g : K → V → W)
    (l : list (K * V)) (acc : gmap K W) (k : K) :
  NoDup l.*1 →
  foldl (λ acc '(k, v), <[k := g k v]> acc) acc l !! k
  = match (list_to_map l : gmap K V) !! k with
    | Some v => Some (g k v)
    | None => acc !! k
    end.
Proof.
  revert acc. induction l as [|[k1 v1] l IH]; intros acc Hnodup; simpl.
  - by rewrite lookup_empty.
  - apply NoDup_cons in Hnodup as [Hfresh Hnodup]. rewrite IH by done.
    destruct (decide (k = k1)) as [->|Hne].
    + rewrite lookup_insert_eq.
      rewrite (not_elem_of_list_to_map_1 _ _ Hfresh).
      by rewrite lookup_insert_eq.
    + rewrite (lookup_insert_ne (list_to_map l)) by done.
      by rewrite lookup_insert_ne by done.
Qed.

Lemma startCount_lookup (pt : PieceType) :
  Broadcast.startCount !! pt
  = Some match pt with
         | Pawn => 8 | Rook | Knight | Bishop => 2 | Queen | King => 1
         end.
Proof. by destruct pt. Qed.

Lemma startCount_total (pt : PieceType) :
  Broadcast.startCount !!! pt
  = match pt with
    | Pawn => 8 | Rook | Knight | Bishop => 2 | Queen | King => 1
    end.
Proof. by rewrite lookup_total_alt, startCount_lookup. Qed.

Lemma captured_count_lookup `{!RuntimeOk} (current : gmap PieceType Z) (pt : PieceType) :
  Broadcast.captured_count Broadcast.startCount current !! pt
  = Some (Broadcast.startCount !!! pt - current !!! pt).
Proof.
  unfold Broadcast.captured_count.
  rewrite (foldl_insert_lookup (λ pt startCount, startCount - current !!! pt))
    by apply range_NoDup.
  rewrite range_list_to_map.
  by rewrite startCount_lookup, startCount_total.
Qed.

(** The pieces that the nested loops list, before they are rendered. *)
Lemma captured_pieces_fold (c : Color) (entries : list (PieceType * Z))
    (pieces : list string) :
  foldl (λ pieces '(pt, count),
           pieces ++ replicate (Z.to_nat count) (Piece_String (NewPiece pt c)))
        pieces entries
  = pieces ++ (Piece_String <$>
                 (entries ≫= λ '(pt, count), replicate (Z.to_nat count) (NewPiece pt c))).
Proof.
  revert pieces. induction entries as [|[pt count] entries IH]; intros pieces; simpl.
  - by rewrite app_nil_r.
  - rewrite IH, <- app_assoc. f_equal.
    by rewrite fmap_app, fmap_replicate.
Qed.

Lemma filter_replicate_piece (c : Color) (pt pt' : PieceType) (n : nat) :
  length (filter (λ p, p = NewPiece pt c) (replicate n (NewPiece pt' c)))
  = if decide (pt' = pt) then n else 0%nat.
Proof.
  induction n as [|n IH]; simpl.
  - by case_decide.
  - rewrite filter_cons. destruct (decide (pt' = pt)) as [->|Hne].
    + rewrite decide_True by done. simpl. by rewrite IH.
    + rewrite decide_False by congruence. by rewrite IH.
Qed.

(** A piece type is listed as often as its entry says, and not at all
    when it has no entry. *)
Lemma listed_in_entries (c : Color) (pt : PieceType) (entries : list (PieceType * Z)) :
  NoDup entries.*1 →
  length (filter (λ p, p = NewPiece pt c)
            (entries ≫= λ '(pt, count), replicate (Z.to_nat count) (NewPiece pt c)))
  = match (list_to_map entries : gmap PieceType Z) !! pt with
    | Some count => Z.to_nat count
    | None => 0%nat
    end.
Proof.
  induction entries as [|[pt' count] entries IH]; intros Hnodup.
  - simpl. by rewrite lookup_empty.
  - rewrite bind_cons. rewrite fmap_cons in Hnodup.
    apply NoDup_cons in Hnodup as [Hfresh Hnodup].
    rewrite filter_app, length_app, filter_replicate_piece, IH by done.
    rewrite list_to_map_cons.
    destruct (decide (pt' = pt)) as [->|Hne].
    + rewrite lookup_insert_eq.
      rewrite (not_elem_of_list_to_map_1 _ _ Hfresh). lia.
    + rewrite lookup_insert_ne by done. lia.
Qed.

Lemma entries_pieces_colour (c : Color) (entries : list (PieceType * Z)) (p : Piece) :
  p ∈ (entries ≫= λ '(pt, count), replicate (Z.to_nat count) (NewPiece pt c)) →
  ∃ pt, p = NewPiece pt c.
Proof.
  intros Hin. apply list_elem_of_bind in Hin as [[pt count] [Hin _]].
  apply elem_of_replicate in Hin as [-> _]. by exists pt.
Qed.

(** A list of pieces of one colour is as long as its piece types are
    listed, taken together. *)
Lemma length_by_piece_type (c : Color) (pieces : list Piece) :
  (∀ p, p ∈ pieces → ∃ pt, p = NewPiece pt c) →
  Z.of_nat (length pieces)
  = listed c King pieces + listed c Queen pieces + listed c Rook pieces
    + listed c Bishop pieces + listed c Knight pieces + listed c Pawn pieces.
Proof.
  unfold listed. induction pieces as [|p pieces IH]; intros Hall; [done|].
  destruct (Hall p) as [pt ->]; [left|].
  rewrite !filter_cons. simpl length.
  assert (IH' := IH (λ q Hq, Hall q (list_elem_of_further _ _ _ Hq))).
  destruct pt;
    repeat (case_decide; [try congruence|try congruence]); simpl length; lia.
Qed.

(** What the two nested loops list for one colour, given the counts on
    the board. *)
Lemma captured_side `{!RuntimeOk} (c : Color) (current : gmap PieceType Z) :
  (∀ pt, 0 ≤ current !!! pt) →
  ∃ pieces : list Piece,
    Broadcast.captured_pieces c (Broadcast.captured_count Broadcast.startCount current)
    = Piece_String <$> pieces
    ∧ (∀ p, p ∈ pieces → ∃ pt, p = NewPiece pt c)
    ∧ (∀ pt, listed c pt pieces
             = Z.max 0 (Broadcast.startCount !!! pt - current !!! pt))
    ∧ (length pieces ≤ 16)%nat.
Proof.
  intros Hnonneg.
  set (captured := Broadcast.captured_count Broadcast.startCount current).
  exists (range captured ≫= λ '(pt, count), replicate (Z.to_nat count) (NewPiece pt c)).
  assert (Hlisted : ∀ pt,
            listed c pt
              (range captured ≫= λ '(pt, count), replicate (Z.to_nat count) (NewPiece pt c))
            = Z.max 0 (Broadcast.startCount !!! pt - current !!! pt)).
  { intros pt. unfold listed.
    rewrite listed_in_entries by apply range_NoDup.
    rewrite range_list_to_map. unfold captured.
    rewrite captured_count_lookup. lia. }
  split; [|split; [|split]].
  - unfold Broadcast.captured_pieces. by rewrite captured_pieces_fold.
  - apply entries_pieces_colour.
  - exact Hlisted.
  - apply Nat2Z.inj_le.
    rewrite (length_by_piece_type c) by apply entries_pieces_colour.
    rewrite !Hlisted, !startCount_total.
    pose proof (Hnonneg King). pose proof (Hnonneg Queen). pose proof (Hnonneg Rook).
    pose proof (Hnonneg Bishop). pose proof (Hnonneg Knight). pose proof (Hnonneg Pawn).
    lia.
Qed.

(** C10.  The captured-material view lists pieces of the right colour on
    each side; a piece type is listed as often as the starting complement
    exceeds the number of such pieces on the board, and not at all when
    the board holds as many or more (after promotions), so no count is
    negative; and each side's list has at most 16 entries.  This holds
    for every board, and in whatever order [range] visits the maps. *)
Theorem C10_captured_material_view `{!RuntimeOk} (game : Game) (gameId : string) :
  let board := Position_Board (Game_Position (Game_ game)) in
  ∃ white black : list Piece,
    Broadcast.GenerateCapturedPiecesMessage game gameId
    = capturedPieces_envelope gameId white black
    ∧ (∀ p, p ∈ white → ∃ pt, p = NewPiece pt White)
    ∧ (∀ p, p ∈ black → ∃ pt, p = NewPiece pt Black)
    ∧ (∀ pt, listed White pt white
             = Z.max 0 (Broadcast.startCount !!! pt - on_board board White pt))
    ∧ (∀ pt, listed Black pt black
             = Z.max 0 (Broadcast.startCount !!! pt - on_board board Black pt))
    ∧ (length white ≤ 16)%nat
    ∧ (length black ≤ 16)%nat.
Proof.
  intros board. unfold Broadcast.GenerateCapturedPiecesMessage. fold board.
  pose proof (count_pieces_on_board board) as Hcount.
  destruct (Broadcast.count_pieces board) as [whiteCurrent blackCurrent].
  simpl in Hcount.
  destruct (captured_side White whiteCurrent) as (white & Hw & Hwc & Hwl & Hwn).
  { intros pt. rewrite (proj1 (Hcount pt)). unfold on_board. lia. }
  destruct (captured_side Black blackCurrent) as (black & Hb & Hbc & Hbl & Hbn).
  { intros pt. rewrite (proj2 (Hcount pt)). unfold on_board. lia. }
  exists white, black. rewrite Hw, Hb.
  split; [done|]. split; [done|]. split; [done|].
  split; [intros pt; by rewrite Hwl, (proj1 (Hcount pt))|].
  split; [intros pt; by rewrite Hbl, (proj2 (Hcount pt))|].
  done.
Qed.

End CapturedView.

Lemma toy_RuntimeOk : @RuntimeOk Toy.runtime.
Proof. split. by intros K ?? V m. Qed.

Lemma C10_witness :
  let board := Position_Board (Game_Position (Game_ Toy.fresh_game)) in
  ∃ white black : list Piece,
    Broadcast.GenerateCapturedPiecesMessage Toy.fresh_game "g1"
    = capturedPieces_envelope "g1" white black
    ∧ (∀ p, p ∈ white → ∃ pt, p = NewPiece pt White)
    ∧ (∀ p, p ∈ black → ∃ pt, p = NewPiece pt Black)
    ∧ (∀ pt, listed White pt white
             = Z.max 0 (Broadcast.startCount !!! pt - on_board board White pt))
    ∧ (∀ pt, listed Black pt black
             = Z.max 0 (Broadcast.startCount !!! pt - on_board board Black pt))
    ∧ (length white ≤ 16)%nat
    ∧ (length black ≤ 16)%nat.
Proof.
  exact (@C10_captured_material_view Toy.engine Toy.json Toy.runtime toy_RuntimeOk
           Toy.fresh_game "g1").
Defined.

(** With two white queens on the board the difference for the queen is
    -1: no queen is listed for White, and nothing else is taken off the
    list to make up for it. *)
Example captured_view_after_promotion :
  Broadcast.captured_count Broadcast.startCount
    (Broadcast.count_pieces (Toy.two_queens : ChessBoard)).1 !! Queen = Some (-1)
  ∧ Broadcast.GenerateCapturedPiecesMessage Toy.promoted_game "g1"
    = Ok "capturedPieces|g1,PPPPPPPPBBNNRR,ppppppppbbqnnrr".
Proof. split; vm_compute; reflexivity. Qed.

(** ** The snapshot *)

Section Snapshot.
Context `{Eng : RulesEngine} `{Js : Json} `{Rt : Runtime} `{!RuntimeOk}.

Lemma bind_Ok_inv {A C} (m : M A) (k : A → M C) (w w' : World) (c : C) :
  (m ≫= k) w = (Ok c, w') →
  ∃ a w1, m w = (Ok a, w1) ∧ k a w1 = (Ok c, w').
Proof.
  unfold mbind, M_bind. destruct (m w) as [[a|e] w1]; [|done].
  intros Hk. by exists a, w1.
Qed.

(** What the loop of [SaveGames] has stored when it ends without an
    error. *)
Lemma SaveGames_loop_lookup (entries : list (string * Game))
    (acc stored : gmap string StoredGame) (id : string) :
  NoDup entries.*1 →
  SaveGames_loop entries acc = Ok stored →
  match (list_to_map entries : gmap string Game) !! id with
  | Some game =>
      ∃ pgn, Game_MarshalText (Game_ game) = Ok pgn
             ∧ stored !! id
               = Some {| PGNStr := pgn; sg_WhitePlayerId := WhitePlayerId game;
                         sg_BlackPlayerId := BlackPlayerId game |}
  | None => stored !! id = acc !! id
  end.
Proof.
  revert acc. induction entries as [|[id1 game1] entries IH]; intros acc Hnodup; simpl.
  - intros [= ->]. by rewrite lookup_empty.
  - apply NoDup_cons in Hnodup as [Hfresh Hnodup].
    destruct (Game_MarshalText (Game_ game1)) as [pgn|e] eqn:Hpgn; simpl; [|done].
    intros Hloop. specialize (IH _ Hnodup Hloop).
    destruct (decide (id = id1)) as [->|Hne].
    + rewrite lookup_insert_eq.
      rewrite (not_elem_of_list_to_map_1 _ _ Hfresh) in IH.
      rewrite lookup_insert_eq in IH. by exists pgn.
    + rewrite lookup_insert_ne by done.
      destruct (list_to_map entries !! id); [done|].
      by rewrite lookup_insert_ne in IH by done.
Qed.

(** What the loop of [LoadGames] leaves in the store when every stored
    game reconstructs. *)
Lemma LoadGames_loop_lookup (notation : Notation_)
    (entries : list (string * StoredGame)) (w : World) :
  NoDup entries.*1 →
  (∀ id storedGame, (id, storedGame) ∈ entries →
     (Game_UnmarshalText (NewGame [UseNotation notation]) (PGNStr storedGame)).2 = None) →
  ∃ w', LoadGames_loop notation entries w = (Ok (), w')
        ∧ ∀ id, games w' !! id
                = match (list_to_map entries : gmap string StoredGame) !! id with
                  | Some storedGame => Some (reconstructed notation storedGame)
                  | None => games w !! id
                  end.
Proof.
  revert w. induction entries as [|[id1 sg1] entries IH]; intros w Hnodup Hall; simpl.
  - exists w. split; [done|]. intros id. by rewrite lookup_empty.
  - apply NoDup_cons in Hnodup as [Hfresh Hnodup].
    pose proof (Hall id1 sg1 ltac:(left)) as Hfirst.
    destruct (Game_UnmarshalText _ (PGNStr sg1)) as [g err] eqn:Hg.
    simpl in Hfirst. subst err.
    unfold mbind, M_bind, store_game, modify.
    destruct (IH (set_games (λ gs, <[id1 :=
                    {| WhitePlayerId := sg_WhitePlayerId sg1;
                       BlackPlayerId := sg_BlackPlayerId sg1; Game_ := g |}]> gs) w)
                 Hnodup) as (w' & Hloop & Hlookup).
    { intros id sg Hin. apply (Hall id). by right. }
    exists w'. split; [done|]. intros id. rewrite Hlookup.
    destruct (decide (id = id1)) as [->|Hne].
    + rewrite (not_elem_of_list_to_map_1 _ _ Hfresh). simpl.
      rewrite !lookup_insert_eq. unfold reconstructed. by rewrite Hg.
    + rewrite (lookup_insert_ne (list_to_map entries)) by done.
      destruct (list_to_map entries !! id); [done|].
      simpl. by rewrite lookup_insert_ne by done.
Qed.

(** What a successful [SaveGames] has done. *)
Lemma SaveGames_Ok_inv (w w' : World) :
  SaveGames w = (Ok (), w') →
  ∃ stored data,
    SaveGames_loop (range (games w)) ∅ = Ok stored
    ∧ Marshal (VStoredGames stored) = Ok data
    ∧ games_json w' = Some data
    ∧ games w' = games w.
Proof.
  unfold SaveGames. intros Hsave.
  apply bind_Ok_inv in Hsave as ([] & w1 & Hcount & Hsave).
  apply bind_Ok_inv in Hsave as (gs & w2 & Hgets & Hsave).
  apply bind_Ok_inv in Hsave as (stored & w3 & Hloop & Hsave).
  apply bind_Ok_inv in Hsave as (data & w4 & Hdata & Hsave).
  unfold modify in Hcount. unfold gets in Hgets. unfold lift in Hloop, Hdata.
  injection Hcount as <-. injection Hgets as <- <-.
  injection Hloop as Hloop <-. injection Hdata as Hdata <-.
  unfold WriteFile in Hsave. destruct (disk_fails _); [done|].
  injection Hsave as <-. by exists stored, data.
Qed.

(** What the loop of [SaveGames] has built when it ends without an
    error, in whatever order the store was visited: the snapshot of the
    store. *)
Lemma SaveGames_loop_snapshot (gs : gmap string Game)
    (stored : gmap string StoredGame) :
  SaveGames_loop (range gs) ∅ = Ok stored → snapshot_of_store gs stored.
Proof.
  intros Hloop.
  assert (Hid : ∀ id,
            match gs !! id with
            | Some game =>
                ∃ pgn, Game_MarshalText (Game_ game) = Ok pgn
                       ∧ stored !! id
                         = Some {| PGNStr := pgn;
                                   sg_WhitePlayerId := WhitePlayerId game;
                                   sg_BlackPlayerId := BlackPlayerId game |}
            | None => stored !! id = None
            end).
  { intros id.
    pose proof (SaveGames_loop_lookup (range gs) ∅ stored id
                  (range_NoDup _) Hloop) as Hid.
    rewrite range_list_to_map in Hid.
    destruct (gs !! id); [done|]. by rewrite lookup_empty in Hid. }
  split.
  - apply set_eq. intros id. rewrite !elem_of_dom. specialize (Hid id).
    destruct (gs !! id) as [game|].
    + destruct Hid as (pgn & _ & ->). split; by eexists.
    + rewrite Hid. split; by intros [? ?].
  - intros id game Hgame. specialize (Hid id). by rewrite Hgame in Hid.
Qed.


(** A move handler that returns without an error has committed: it went
    through a successful [SaveGames], and nothing it did afterwards
    touched the store or the snapshot. *)
Lemma Broadcast_HandleMove_Ok_inv (wsMsg : WebsocketMessage) (client : Client)
    (w w' : World) :
  Broadcast.HandleMove wsMsg client w = (Ok (), w') →
  ∃ w1 w2, SaveGames w1 = (Ok (), w2) ∧ store_of w' = store_of w2.
Proof.
  unfold Broadcast.HandleMove. intros Hok.
  apply bind_Ok_inv in Hok as (move & w1 & _ & Hok).
  apply bind_Ok_inv in Hok as ([game|] & w2 & _ & Hok); [|done].
  destruct (Game_MoveStr (Game_ game) (mm_Move move)) as [g err].
  apply bind_Ok_inv in Hok as ([] & w3 & _ & Hok).
  destruct err as [e|]; [done|].
  apply bind_Ok_inv in Hok as ([] & w4 & Hsave & Hok).
  exists w3, w4. split; [done|].
  pose proof (keeps_after_commit_broadcast store_of store_of_sent store_of_stdout
                (with_chess game g) move client w4) as Hkeep.
  rewrite <- Hkeep. exact (eq_sym (f_equal (λ r, store_of r.2) Hok)).
Qed.

Lemma OpponentOnly_HandleMove_Ok_inv (wsMsg : WebsocketMessage) (client : Client)
    (w w' : World) :
  OpponentOnly.HandleMove wsMsg client w = (Ok (), w') →
  ∃ w1 w2, SaveGames w1 = (Ok (), w2) ∧ store_of w' = store_of w2.
Proof.
  unfold OpponentOnly.HandleMove. intros Hok.
  apply bind_Ok_inv in Hok as (move & w1 & _ & Hok).
  apply bind_Ok_inv in Hok as ([game|] & w2 & _ & Hok); [|done].
  destruct (OpponentOnly.find_and_move _ _ _) as [[g err] moved].
  apply bind_Ok_inv in Hok as ([] & w3 & _ & Hok).
  destruct err as [e|]; [done|].
  destruct moved; cbn [negb] in Hok; [|done].
  apply bind_Ok_inv in Hok as ([] & w4 & Hsave & Hok).
  exists w3, w4. split; [done|].
  pose proof (keeps_after_commit_opponent store_of store_of_sent store_of_stdout
                (with_chess game g) move client w4) as Hkeep.
  rewrite <- Hkeep. exact (eq_sym (f_equal (λ r, store_of r.2) Hok)).
Qed.

End Snapshot.


(** ** The session that a committed move changes *)

Section Commit.
Context `{Eng : RulesEngine} `{Js : Json} `{Rt : Runtime}.

Lemma bind_lift {A C} (r : result A) (k : A → M C) (w : World) :
  (lift r ≫= k) w = match r with Ok a => k a w | Err e => (Err e, w) end.
Proof. by destruct r. Qed.

Lemma bind_gets {A C} (f : World → A) (k : A → M C) (w : World) :
  (gets f ≫= k) w = k (f w) w.
Proof. done. Qed.

Lemma bind_modify {C} (f : World → World) (k : unit → M C) (w : World) :
  (modify f ≫= k) w = k () (f w).
Proof. done. Qed.

(** A move that the engine takes changes the session it names, and no
    other, whatever happens to the messages afterwards. *)
Lemma Broadcast_HandleMove_games (wsMsg : WebsocketMessage) (client : Client)
    (move : MoveMessage) (game : Game) (g : ChessGame) (w : World) :
  Unmarshal_MoveMessage (ws_Payload wsMsg) = Ok move →
  games w !! mm_GameID move = Some game →
  Game_MoveStr (Game_ game) (mm_Move move) = (g, None) →
  games (Broadcast.HandleMove wsMsg client w).2
  = <[mm_GameID move := with_chess game g]> (games w).
Proof.
  intros Hdec Hgame Hmove. unfold Broadcast.HandleMove.
  rewrite bind_lift, Hdec. unfold lookup_game. rewrite bind_gets, Hgame, Hmove.
  unfold store_game. rewrite bind_modify.
  apply (keeps_bind games SaveGames).
  - by apply keeps_SaveGames.
  - intros ?.
    by apply (keeps_after_commit_broadcast games (λ _ _ _, eq_refl) (λ _ _, eq_refl)
                (with_chess game g)).
Qed.

Lemma OpponentOnly_HandleMove_games (wsMsg : WebsocketMessage) (client : Client)
    (move : MoveMessage) (game : Game) (g : ChessGame) (w : World) :
  Unmarshal_MoveMessage (ws_Payload wsMsg) = Ok move →
  games w !! mm_GameID move = Some game →
  OpponentOnly.find_and_move (Game_ValidMoves (Game_ game)) (mm_Move move) (Game_ game)
  = (g, None, true) →
  games (OpponentOnly.HandleMove wsMsg client w).2
  = <[mm_GameID move := with_chess game g]> (games w).
Proof.
  intros Hdec Hgame Hmove. unfold OpponentOnly.HandleMove.
  rewrite bind_lift, Hdec. unfold lookup_game. rewrite bind_gets, Hgame, Hmove.
  unfold store_game. rewrite bind_modify. cbn [negb].
  apply (keeps_bind games SaveGames).
  - by apply keeps_SaveGames.
  - intros ?.
    by apply (keeps_after_commit_opponent games (λ _ _ _, eq_refl) (λ _ _, eq_refl)
                (with_chess game g)).
Qed.

End Commit.

(** * Further properties of the handlers *)

(** ** Requests that are refused *)

Section Refusals.
Context `{Eng : RulesEngine} `{Js : Json} `{Rt : Runtime}.

(** A move for a session id that the store does not hold is refused
    with "Game not found" and changes nothing, in both variants. *)
Theorem HandleMove_unknown_session (wsMsg : WebsocketMessage) (client : Client)
    (move : MoveMessage) (w : World) :
  Unmarshal_MoveMessage (ws_Payload wsMsg) = Ok move →
  games w !! mm_GameID move = None →
  Broadcast.HandleMove wsMsg client w = (Err "Game not found", w)
  ∧ OpponentOnly.HandleMove wsMsg client w = (Err "Game not found", w).
Proof.
  intros Hdec Hnone. unfold Broadcast.HandleMove, OpponentOnly.HandleMove.
  rewrite !bind_lift, Hdec. unfold lookup_game. by rewrite !bind_gets, Hnone.
Qed.

(** A join is refused without a message to the requester when the
    session id is unknown ("Game not found") and when the requester is
    neither participant of the session ("Player not in game"). *)
Theorem HandleJoin_refusals (wsMsg : WebsocketMessage) (newClient : Client)
    (join : JoinMessage) (w : World) :
  Unmarshal_JoinMessage (ws_Payload wsMsg) = Ok join →
  (games w !! jm_GameID join = None →
   Broadcast.HandleJoin wsMsg newClient w = (Err "Game not found", w)
   ∧ OpponentOnly.HandleJoin wsMsg newClient w = (Err "Game not found", w))
  ∧ (∀ game, games w !! jm_GameID join = Some game →
       WhitePlayerId game ≠ ID newClient →
       BlackPlayerId game ≠ ID newClient →
       Broadcast.HandleJoin wsMsg newClient w = (Err "Player not in game", w)
       ∧ OpponentOnly.HandleJoin wsMsg newClient w = (Err "Player not in game", w)).
Proof.
  intros Hdec. unfold Broadcast.HandleJoin, OpponentOnly.HandleJoin.
  rewrite !bind_lift, Hdec. unfold lookup_game. rewrite !bind_gets. split.
  - by intros ->.
  - intros game -> Hwhite Hblack. rewrite !bind_lift.
    unfold GenerateAgainstMessage.
    by rewrite (decide_False (P := WhitePlayerId game = ID newClient)),
               (decide_False (P := BlackPlayerId game = ID newClient)) by done.
Qed.

(** A join or move envelope whose payload does not decode costs the
    connection nothing: in both variants the dispatcher prints the
    decoding error and the world is otherwise as before. *)
Theorem dispatch_prints_payload_error (wsMsg : WebsocketMessage) (newClient : Client)
    (e : error) (w : World) :
  (ws_Type wsMsg = "join" ∧ Unmarshal_JoinMessage (ws_Payload wsMsg) = Err e)
  ∨ (ws_Type wsMsg = "move" ∧ Unmarshal_MoveMessage (ws_Payload wsMsg) = Err e) →
  Broadcast.dispatch wsMsg newClient w = add_stdout e w
  ∧ OpponentOnly.dispatch wsMsg newClient w = add_stdout e w.
Proof.
  intros [[Htype Hdec]|[Htype Hdec]];
    unfold Broadcast.dispatch, OpponentOnly.dispatch; rewrite Htype.
  - rewrite !(decide_False (P := "join" = "leave")) by done.
    rewrite !(decide_True (P := "join" = "join")) by done.
    unfold Broadcast.HandleJoin, OpponentOnly.HandleJoin.
    by rewrite !bind_lift, Hdec.
  - rewrite !(decide_False (P := "move" = "leave")) by done.
    rewrite !(decide_False (P := "move" = "join")) by done.
    rewrite !(decide_True (P := "move" = "move")) by done.
    unfold Broadcast.HandleMove, OpponentOnly.HandleMove.
    by rewrite !bind_lift, Hdec.
Qed.

(** An envelope of type [leave], or of a type that is none of [leave],
    [join] and [move], changes nothing in either variant. *)
Theorem dispatch_ignores_other_types (wsMsg : WebsocketMessage) (newClient : Client)
    (w : World) :
  ws_Type wsMsg ≠ "join" →
  ws_Type wsMsg ≠ "move" →
  Broadcast.dispatch wsMsg newClient w = w
  ∧ OpponentOnly.dispatch wsMsg newClient w = w.
Proof.
  intros Hjoin Hmove. unfold Broadcast.dispatch, OpponentOnly.dispatch.
  split; case_decide; try done; by rewrite !decide_False by done.
Qed.

End Refusals.

Lemma HandleMove_unknown_session_witness :
  let wsMsg := {| ws_Type := "move"; ws_Payload := "zz,w,e2e4" |} in
  let alice := {| ID := "alice"; Conn := 1 |} in
  Broadcast.HandleMove wsMsg alice Toy.one_game = (Err "Game not found", Toy.one_game)
  ∧ OpponentOnly.HandleMove wsMsg alice Toy.one_game
    = (Err "Game not found", Toy.one_game).
Proof.
  intros wsMsg alice.
  apply (HandleMove_unknown_session wsMsg alice
           {| mm_GameID := "zz"; mm_Color := "w"; mm_Move := "e2e4" |}).
  - reflexivity.
  - reflexivity.
Defined.

Lemma HandleJoin_refusals_witness :
  let mallory := {| ID := "mallory"; Conn := 7 |} in
  Broadcast.HandleJoin {| ws_Type := "join"; ws_Payload := "g1" |} mallory Toy.one_game
  = (Err "Player not in game", Toy.one_game)
  ∧ OpponentOnly.HandleJoin {| ws_Type := "join"; ws_Payload := "g1" |} mallory
      Toy.one_game
    = (Err "Player not in game", Toy.one_game).
Proof.
  intros mallory.
  destruct (HandleJoin_refusals {| ws_Type := "join"; ws_Payload := "g1" |}
              mallory {| jm_GameID := "g1" |} Toy.one_game) as [_ Hrefused].
  - reflexivity.
  - apply (Hrefused Toy.fresh_game).
    + reflexivity.
    + discriminate.
    + discriminate.
Defined.

Lemma dispatch_prints_payload_error_witness :
  let wsMsg := {| ws_Type := "move"; ws_Payload := "no separators" |} in
  let alice := {| ID := "alice"; Conn := 1 |} in
  Broadcast.dispatch wsMsg alice Toy.one_game
  = add_stdout "json: cannot unmarshal into MoveMessage" Toy.one_game
  ∧ OpponentOnly.dispatch wsMsg alice Toy.one_game
    = add_stdout "json: cannot unmarshal into MoveMessage" Toy.one_game.
Proof.
  intros wsMsg alice. apply dispatch_prints_payload_error.
  right. split; reflexivity.
Defined.

Lemma dispatch_ignores_other_types_witness :
  let alice := {| ID := "alice"; Conn := 1 |} in
  Broadcast.dispatch {| ws_Type := "leave"; ws_Payload := "" |} alice Toy.one_game
  = Toy.one_game
  ∧ OpponentOnly.dispatch {| ws_Type := "leave"; ws_Payload := "" |} alice Toy.one_game
    = Toy.one_game.
Proof.
  intros alice. apply dispatch_ignores_other_types; discriminate.
Defined.

(** ** What a join and a broadcast send *)

Section Deliveries.
Context `{Eng : RulesEngine} `{Js : Json} `{Rt : Runtime}.

Lemma bind_WriteMessage {C} (conn : nat) (data : string) (k : unit → M C) (w : World) :
  conn ∉ broken w →
  (WriteMessage conn data ≫= k) w = k () (add_sent conn data w).
Proof.
  intros Hok. unfold mbind, M_bind, WriteMessage. by rewrite decide_False by done.
Qed.

Lemma WriteMessage_working (conn : nat) (data : string) (w : World) :
  conn ∉ broken w → WriteMessage conn data w = (Ok (), add_sent conn data w).
Proof. intros Hok. unfold WriteMessage. by rewrite decide_False by done. Qed.

Lemma GenerateAgainstMessage_total (game : Game) (client : Client) :
  Marshal_total →
  WhitePlayerId game = ID client ∨ BlackPlayerId game = ID client →
  ∃ data, GenerateAgainstMessage game client = Ok data.
Proof.
  intros Htotal Hin. unfold GenerateAgainstMessage.
  destruct (decide (WhitePlayerId game = ID client)); simpl;
    [by apply encode_envelope_total|].
  destruct (decide (BlackPlayerId game = ID client)); simpl;
    [by apply encode_envelope_total|tauto].
Qed.

Lemma GenerateCapturedPiecesMessage_total (game : Game) (gameId : string) :
  Marshal_total →
  ∃ data, Broadcast.GenerateCapturedPiecesMessage game gameId = Ok data.
Proof.
  intros Htotal. unfold Broadcast.GenerateCapturedPiecesMessage.
  destruct (Broadcast.count_pieces _). by apply encode_envelope_total.
Qed.

Lemma GeneratePossibleMovesMessage_total (game : Game) (gameId clientId : string) :
  Marshal_total →
  ∃ data, Broadcast.GeneratePossibleMovesMessage game gameId clientId = Ok data.
Proof.
  intros Htotal. unfold Broadcast.GeneratePossibleMovesMessage.
  repeat case_decide; by apply encode_envelope_total.
Qed.

(** A participant who joins over a working connection is sent, and
    nobody else is: in the broadcast variant the opponent, the legal
    moves as the participant may see them, the outcome and the captured
    pieces, in this order; in the opponent-only variant the opponent
    alone. *)
Theorem HandleJoin_answers_the_participant (wsMsg : WebsocketMessage)
    (newClient : Client) (join : JoinMessage) (game : Game) (w : World) :
  Marshal_total →
  Unmarshal_JoinMessage (ws_Payload wsMsg) = Ok join →
  games w !! jm_GameID join = Some game →
  WhitePlayerId game = ID newClient ∨ BlackPlayerId game = ID newClient →
  Conn newClient ∉ broken w →
  ∃ against moves outcome captured,
    GenerateAgainstMessage game newClient = Ok against
    ∧ Broadcast.GeneratePossibleMovesMessage game (jm_GameID join) (ID newClient)
      = Ok moves
    ∧ Broadcast.GenerateOutcomeMessage game (jm_GameID join) = Ok outcome
    ∧ Broadcast.GenerateCapturedPiecesMessage game (jm_GameID join) = Ok captured
    ∧ Broadcast.HandleJoin wsMsg newClient w
      = (Ok (),
         add_sent (Conn newClient) captured
           (add_sent (Conn newClient) outcome
              (add_sent (Conn newClient) moves
                 (add_sent (Conn newClient) against w))))
    ∧ OpponentOnly.HandleJoin wsMsg newClient w
      = (Ok (), add_sent (Conn newClient) against w).
Proof.
  intros Htotal Hdec Hgame Hin Hconn.
  destruct (GenerateAgainstMessage_total game newClient Htotal Hin) as [against Ha].
  destruct (GeneratePossibleMovesMessage_total game (jm_GameID join) (ID newClient)
              Htotal) as [moves Hm].
  assert (∃ outcome, Broadcast.GenerateOutcomeMessage game (jm_GameID join) = Ok outcome)
    as [outcome Ho] by (by apply encode_envelope_total).
  destruct (GenerateCapturedPiecesMessage_total game (jm_GameID join) Htotal)
    as [captured Hc].
  exists against, moves, outcome, captured.
  repeat (split; [done|]).
  unfold Broadcast.HandleJoin, OpponentOnly.HandleJoin.
  rewrite !bind_lift, Hdec. unfold lookup_game. rewrite !bind_gets, Hgame.
  rewrite !bind_lift, Ha. split; [|by apply WriteMessage_working].
  rewrite bind_WriteMessage by done.
  rewrite bind_lift, Hm, bind_WriteMessage by done.
  rewrite bind_lift, Ho, bind_WriteMessage by done.
  rewrite bind_lift, Hc. by apply WriteMessage_working.
Qed.

(** A join reads: whatever it returns, the session store, the registry,
    the snapshot file, the closed connections and the standard output
    are as before.  Only messages to the requester are added. *)
Theorem HandleJoin_only_sends (wsMsg : WebsocketMessage) (newClient : Client)
    (w : World) :
  let rest (w : World) := (store_of w, closed w, stdout w, broken w) in
  rest (Broadcast.HandleJoin wsMsg newClient w).2 = rest w
  ∧ rest (OpponentOnly.HandleJoin wsMsg newClient w).2 = rest w
  ∧ (∀ conn data, (conn, data) ∈ sent (Broadcast.HandleJoin wsMsg newClient w).2 →
       (conn, data) ∈ sent w ∨ conn = Conn newClient).
Proof.
  intros rest. split; [|split].
  - by apply (keeps_Broadcast_HandleJoin rest).
  - by apply (keeps_OpponentOnly_HandleJoin rest).
  - intros conn data Hin.
    set (P := λ m : nat * string, m ∈ sent w ∨ m.1 = Conn newClient).
    assert (Hwrite : ∀ d w1, Forall P (sent w1) →
                             Forall P (sent (WriteMessage (Conn newClient) d w1).2)).
    { intros d w1 Hw1. unfold WriteMessage. case_decide; simpl; [done|].
      apply Forall_app. split; [done|]. apply Forall_singleton. by right. }
    assert (Hall : Forall P (sent (Broadcast.HandleJoin wsMsg newClient w).2)).
    { assert (Hw : Forall P (sent w)) by (apply Forall_forall; by left).
      unfold Broadcast.HandleJoin, mbind, M_bind, lift, lookup_game, gets.
      destruct (Unmarshal_JoinMessage _); simpl; [|done].
      destruct (games w !! _); simpl; [|done].
      destruct (GenerateAgainstMessage _ _) as [d1|]; simpl; [|done].
      pose proof (Hwrite d1 w Hw) as H1.
      destruct (WriteMessage (Conn newClient) d1 w) as [[[]|?] w1]; simpl in *; [|done].
      destruct (Broadcast.GeneratePossibleMovesMessage _ _ _) as [d2|]; simpl; [|done].
      pose proof (Hwrite d2 w1 H1) as H2.
      destruct (WriteMessage (Conn newClient) d2 w1) as [[[]|?] w2]; simpl in *; [|done].
      destruct (Broadcast.GenerateOutcomeMessage _ _) as [d3|]; simpl; [|done].
      pose proof (Hwrite d3 w2 H2) as H3.
      destruct (WriteMessage (Conn newClient) d3 w2) as [[[]|?] w3]; simpl in *; [|done].
      destruct (Broadcast.GenerateCapturedPiecesMessage _ _) as [d4|]; simpl; [|done].
      by apply Hwrite. }
    rewrite Forall_forall in Hall. by apply (Hall (conn, data)).
Qed.

End Deliveries.

Lemma HandleJoin_answers_the_participant_witness :
  let alice := {| ID := "alice"; Conn := 1 |} in
  let wsMsg := {| ws_Type := "join"; ws_Payload := "g1" |} in
  ∃ against moves outcome captured,
    GenerateAgainstMessage Toy.fresh_game alice = Ok against
    ∧ Broadcast.GeneratePossibleMovesMessage Toy.fresh_game "g1" "alice" = Ok moves
    ∧ Broadcast.GenerateOutcomeMessage Toy.fresh_game "g1" = Ok outcome
    ∧ Broadcast.GenerateCapturedPiecesMessage Toy.fresh_game "g1" = Ok captured
    ∧ Broadcast.HandleJoin wsMsg alice Toy.one_game
      = (Ok (),
         add_sent 1 captured
           (add_sent 1 outcome (add_sent 1 moves (add_sent 1 against Toy.one_game))))
    ∧ OpponentOnly.HandleJoin wsMsg alice Toy.one_game
      = (Ok (), add_sent 1 against Toy.one_game).
Proof.
  intros alice wsMsg.
  apply (HandleJoin_answers_the_participant wsMsg alice {| jm_GameID := "g1" |}
           Toy.fresh_game Toy.one_game).
  - apply toy_Marshal_total.
  - reflexivity.
  - reflexivity.
  - left. reflexivity.
  - exact (not_elem_of_empty (C := gset nat) 1%nat).
Defined.

Section Views.
Context `{Eng : RulesEngine} `{Js : Json} `{Rt : Runtime}.

(** The outcome view, as a table.  The winner is "w" for a win of White,
    "b" for a win of Black and empty otherwise; the outcome text is empty
    exactly when the game has no outcome and did not end by checkmate. *)
Theorem GenerateOutcomeMessage_fields (game : Game) (gameId : string) :
  ∃ msg,
    Broadcast.GenerateOutcomeMessage game gameId = encode_envelope "outcome" (VOutcome msg)
    ∧ om_GameID msg = gameId
    ∧ (om_Winner msg = "w" ↔ Game_Outcome (Game_ game) = WhiteWon)
    ∧ (om_Winner msg = "b" ↔ Game_Outcome (Game_ game) = BlackWon)
    ∧ (om_Winner msg = ""
       ↔ Game_Outcome (Game_ game) = NoOutcome ∨ Game_Outcome (Game_ game) = Draw)
    ∧ (om_Outcome msg = ""
       ↔ Game_Outcome (Game_ game) = NoOutcome ∧ Game_Method (Game_ game) ≠ Checkmate).
Proof.
  unfold Broadcast.GenerateOutcomeMessage.
  destruct (Game_Outcome (Game_ game)), (Game_Method (Game_ game)); simpl;
    eexists; (split; [reflexivity|]); simpl; (split; [reflexivity|]);
    repeat split; try done; try (intros [|]; done); try (intros []; done);
    try (by left); try (by right).
Qed.

(** One round of the broadcast loop: a client whose connection is broken
    costs one printed error, a client whose connection works is sent the
    three messages. *)
Lemma broadcast_cons (client : Client) (rest : list Client) (a b c : string)
    (w : World) :
  Broadcast.broadcast (client :: rest) a b c w
  = Broadcast.broadcast rest a b c
      (if decide (Conn client ∈ broken w) then add_stdout "websocket: write failed" w
       else add_sent (Conn client) c
              (add_sent (Conn client) b (add_sent (Conn client) a w))).
Proof.
  simpl. unfold mbind, M_bind, catch, WriteMessage, Println, modify. simpl.
  destruct (decide (Conn client ∈ broken w)); simpl; [done|].
  rewrite decide_False by done. simpl. by rewrite decide_False by done.
Qed.

Lemma broadcast_rounds (clients : list Client) (a b c : string) (w : World) :
  (Broadcast.broadcast clients a b c w).1 = Ok ()
  ∧ sent (Broadcast.broadcast clients a b c w).2
    = sent w ++ (clients ≫= λ client,
                   if decide (Conn client ∈ broken w) then []
                   else [(Conn client, a); (Conn client, b); (Conn client, c)])
  ∧ stdout (Broadcast.broadcast clients a b c w).2
    = stdout w ++ (clients ≫= λ client,
                     if decide (Conn client ∈ broken w)
                     then ["websocket: write failed"] else [])
  ∧ store_of (Broadcast.broadcast clients a b c w).2 = store_of w
  ∧ closed (Broadcast.broadcast clients a b c w).2 = closed w
  ∧ broken (Broadcast.broadcast clients a b c w).2 = broken w.
Proof.
  revert w. induction clients as [|client rest IH]; intros w.
  - simpl. by rewrite !app_nil_r.
  - rewrite broadcast_cons, !bind_cons.
    destruct (decide (Conn client ∈ broken w)) as [Hbroken|Hworks].
    + destruct (IH (add_stdout "websocket: write failed" w))
        as (Hr & Hsent & Hout & Hstore & Hclosed & Hbrk).
      rewrite Hr, Hsent, Hout, Hstore, Hclosed, Hbrk. simpl.
      by rewrite <- app_assoc.
    + destruct (IH (add_sent (Conn client) c
                      (add_sent (Conn client) b (add_sent (Conn client) a w))))
        as (Hr & Hsent & Hout & Hstore & Hclosed & Hbrk).
      rewrite Hr, Hsent, Hout, Hstore, Hclosed, Hbrk. simpl.
      by rewrite <- !app_assoc.
Qed.

(** The broadcast after a move never fails and never stops early: in
    registry order, every entry with a working connection is sent the
    same three messages, every entry with a broken one is skipped with
    one printed error, and nothing else changes. *)
Theorem broadcast_delivery (clients : list Client) (a b c : string) (w : World) :
  (Broadcast.broadcast clients a b c w).1 = Ok ()
  ∧ sent (Broadcast.broadcast clients a b c w).2
    = sent w ++ (clients ≫= λ client,
                   if decide (Conn client ∈ broken w) then []
                   else [(Conn client, a); (Conn client, b); (Conn client, c)])
  ∧ stdout (Broadcast.broadcast clients a b c w).2
    = stdout w ++ (clients ≫= λ client,
                     if decide (Conn client ∈ broken w)
                     then ["websocket: write failed"] else [])
  ∧ store_of (Broadcast.broadcast clients a b c w).2 = store_of w
  ∧ closed (Broadcast.broadcast clients a b c w).2 = closed w
  ∧ broken (Broadcast.broadcast clients a b c w).2 = broken w.
Proof. apply broadcast_rounds. Qed.

End Views.

(** ** Writing and loading the snapshot *)

Section SnapshotFile.
Context `{Eng : RulesEngine} `{Js : Json} `{Rt : Runtime} `{!RuntimeOk}.

Lemma range_lookup {K} `{Countable K} {V} (m : gmap K V) (k : K) (v : V) :
  (k, v) ∈ range m ↔ m !! k = Some v.
Proof. rewrite range_perm. apply elem_of_map_to_list. Qed.

Lemma SaveGames_loop_fails (entries : list (string * Game))
    (acc : gmap string StoredGame) (id : string) (game : Game) (e : error) :
  (id, game) ∈ entries →
  Game_MarshalText (Game_ game) = Err e →
  ∃ e', SaveGames_loop entries acc = Err e'.
Proof.
  intros Hin Hfail. revert acc.
  induction entries as [|[id1 game1] entries IH]; intros acc; [by inversion Hin|].
  simpl. destruct (Game_MarshalText (Game_ game1)) as [pgn|e1] eqn:Hfirst; simpl;
    [|by eexists].
  apply elem_of_cons in Hin as [[= -> ->]|Hin]; [congruence|by apply IH].
Qed.

Lemma SaveGames_loop_succeeds (entries : list (string * Game))
    (acc : gmap string StoredGame) :
  (∀ id game, (id, game) ∈ entries → ∃ pgn, Game_MarshalText (Game_ game) = Ok pgn) →
  ∃ stored, SaveGames_loop entries acc = Ok stored.
Proof.
  revert acc. induction entries as [|[id1 game1] entries IH]; intros acc Hall; simpl;
    [by eexists|].
  destruct (Hall id1 game1) as [pgn ->]; [left|]. simpl.
  apply IH. intros id game Hin. apply (Hall id). by right.
Qed.

(** [SaveGames], step by step: the call is counted; an error of the loop
    or of [json.Marshal] returns before the file is opened; otherwise
    the file is written, and a write that fails leaves what
    [failed_write] says. *)
Lemma SaveGames_unfold (w : World) :
  SaveGames w
  = match SaveGames_loop (range (games w)) ∅ with
    | Err e => (Err e, count_save w)
    | Ok stored =>
        match Marshal (VStoredGames stored) with
        | Err e => (Err e, count_save w)
        | Ok data => WriteFile data (count_save w)
        end
    end.
Proof.
  unfold SaveGames, mbind, M_bind, modify, gets, lift. simpl.
  destruct (SaveGames_loop _ _); [|done]. by destruct (Marshal _).
Qed.

(** [SaveGames] touches the snapshot file and nothing else (its call is
    counted).  When it fails before the write, at a game or at the
    encoding of the stored map, the file is as it was.  When it gets to
    the write, the file holds the encoded snapshot if the write
    succeeds; if the write fails it is as it was only when the file
    could not be opened, and otherwise holds the part of the encoding,
    possibly empty, that the failed write left. *)
Theorem SaveGames_touches_the_file_only (w : World) :
  beside_the_file (SaveGames w).2 = beside_the_file (count_save w)
  ∧ (∀ e, SaveGames_loop (range (games w)) ∅ = Err e →
          games_json (SaveGames w).2 = games_json w)
  ∧ (∀ stored e, SaveGames_loop (range (games w)) ∅ = Ok stored →
                 Marshal (VStoredGames stored) = Err e →
                 games_json (SaveGames w).2 = games_json w)
  ∧ (∀ stored data, SaveGames_loop (range (games w)) ∅ = Ok stored →
                    Marshal (VStoredGames stored) = Ok data →
                    games_json (SaveGames w).2
                    = if disk_fails w then
                        match failed_write data with
                        | Some part => Some part
                        | None => games_json w
                        end
                      else Some data).
Proof.
  rewrite SaveGames_unfold. unfold WriteFile. simpl.
  split; [|split; [|split]].
  - destruct (SaveGames_loop _ _); [|done]. destruct (Marshal _); [|done].
    destruct (disk_fails w); [|done]. by destruct (failed_write _).
  - by intros e ->.
  - by intros stored e -> ->.
  - intros stored data -> ->. destruct (disk_fails w); [|done].
    by destruct (failed_write data).
Qed.

(** A game that does not marshal stops [SaveGames] before the file is
    opened. *)
Lemma SaveGames_stops_at_a_bad_game (w : World) (id : string) (game : Game)
    (e : error) :
  games w !! id = Some game →
  Game_MarshalText (Game_ game) = Err e →
  ∃ e', SaveGames w = (Err e', count_save w).
Proof.
  intros Hgame Hpgn. rewrite SaveGames_unfold.
  destruct (SaveGames_loop_fails (range (games w)) ∅ id game e) as [e' ->];
    [by apply range_lookup|done|]. by eexists.
Qed.

(** With a file that cannot be written [SaveGames] returns an error,
    whatever it was given, and touches nothing but the file; the file is
    as it was or holds what the failed write left of the encoded
    snapshot. *)
Lemma SaveGames_on_a_failing_disk (w : World) :
  disk_fails w = true →
  (∃ e, (SaveGames w).1 = Err e)
  ∧ beside_the_file (SaveGames w).2 = beside_the_file (count_save w)
  ∧ file_after_failed_save (games w) (games_json w) (games_json (SaveGames w).2).
Proof.
  intros Hdisk. rewrite SaveGames_unfold. unfold WriteFile. simpl.
  destruct (SaveGames_loop _ _) as [stored|e] eqn:Hloop;
    [|split; [by eexists|split; [done|by left]]].
  destruct (Marshal _) as [data|e] eqn:Hdata;
    [|split; [by eexists|split; [done|by left]]].
  rewrite Hdisk. simpl. split; [by eexists|].
  destruct (failed_write data) as [part|] eqn:Hpart; (split; [done|]); [|by left].
  right. exists stored, data, part.
  split; [by apply SaveGames_loop_snapshot|done].
Qed.

(** No partial snapshot comes from a session that cannot be written
    down: when one session's game does not marshal, [SaveGames] returns
    an error before the file is opened and the file stays as it was,
    whatever the other sessions are and in whatever order the store is
    visited.  And when the file cannot be written, [SaveGames] returns
    an error. *)
Theorem SaveGames_fails_at_a_bad_game_or_a_failing_disk (w : World) :
  ((∃ id game e, games w !! id = Some game ∧ Game_MarshalText (Game_ game) = Err e) →
   ∃ e, SaveGames w = (Err e, count_save w))
  ∧ (disk_fails w = true → ∃ e, (SaveGames w).1 = Err e).
Proof.
  split.
  - intros (id & game & e & Hgame & Hpgn). by eapply SaveGames_stops_at_a_bad_game.
  - intros Hdisk. by destruct (SaveGames_on_a_failing_disk w Hdisk) as [? _].
Qed.

(** When every game marshals and the file can be written, [SaveGames]
    writes what [json.Marshal] makes of the snapshot of the store. *)
Lemma SaveGames_writes_the_snapshot (w : World) :
  Marshal_total →
  (∀ id game, games w !! id = Some game →
              ∃ pgn, Game_MarshalText (Game_ game) = Ok pgn) →
  disk_fails w = false →
  ∃ stored data,
    snapshot_of_store (games w) stored
    ∧ Marshal (VStoredGames stored) = Ok data
    ∧ SaveGames w = (Ok (), set_games_json data (count_save w)).
Proof.
  intros Htotal Hall Hdisk. rewrite SaveGames_unfold.
  destruct (SaveGames_loop_succeeds (range (games w)) ∅) as [stored Hloop].
  { intros id game Hin. apply (Hall id). by apply range_lookup. }
  rewrite Hloop.
  destruct (Htotal (VStoredGames stored)) as [data Hdata]. rewrite Hdata.
  exists stored, data. split; [by apply SaveGames_loop_snapshot|]. split; [done|].
  unfold WriteFile. simpl. by rewrite Hdisk.
Qed.


(** What a successful [SaveGames] has written, in whatever order the
    store was visited: the encoding of a map with exactly the session
    ids of the store, each with the text of its game and its two
    participants. *)
Theorem SaveGames_writes_the_whole_store (w w' : World) :
  SaveGames w = (Ok (), w') →
  ∃ stored data,
    Marshal (VStoredGames stored) = Ok data
    ∧ games_json w' = Some data
    ∧ dom stored = dom (games w)
    ∧ ∀ id game, games w !! id = Some game →
        ∃ pgn, Game_MarshalText (Game_ game) = Ok pgn
               ∧ stored !! id
                 = Some {| PGNStr := pgn; sg_WhitePlayerId := WhitePlayerId game;
                           sg_BlackPlayerId := BlackPlayerId game |}.
Proof.
  intros Hsave.
  apply SaveGames_Ok_inv in Hsave as (stored & data & Hloop & Hdata & Hfile & _).
  exists stored, data. split; [done|]. split; [done|].
  by apply SaveGames_loop_snapshot.
Qed.

(** The sessions that the loop of [LoadGames] leaves in the store, also
    when it stops at a stored game that does not reconstruct: sessions
    that were there, and reconstructions of stored games. *)
Lemma LoadGames_loop_sessions (notation : Notation_)
    (entries : list (string * StoredGame)) (w : World) (id : string) (game : Game) :
  games (LoadGames_loop notation entries w).2 !! id = Some game →
  games w !! id = Some game
  ∨ ∃ storedGame, (id, storedGame) ∈ entries
                  ∧ game = reconstructed notation storedGame.
Proof.
  revert w. induction entries as [|[id1 sg1] entries IH]; intros w; simpl; [by left|].
  destruct (Game_UnmarshalText _ (PGNStr sg1)) as [g err] eqn:Hg.
  destruct err as [e|]; [by left|].
  unfold mbind, M_bind, store_game, modify.
  intros Hin. apply IH in Hin as [Hin|(sg & Hin & ->)].
  - simpl in Hin. apply lookup_insert_Some in Hin as [[<- <-]|[_ Hin]]; [|by left].
    right. exists sg1. split; [left|]. unfold reconstructed. by rewrite Hg.
  - right. exists sg. split; [by right|done].
Qed.

Lemma LoadGames_with_sessions (notation : Notation_) (data : string)
    (stored : gmap string StoredGame) (w : World) (id : string) (game : Game) :
  games_json w = Some data →
  Unmarshal_StoredGames data = Ok stored →
  games (LoadGames_with notation w).2 !! id = Some game →
  ∃ storedGame, stored !! id = Some storedGame
                ∧ game = reconstructed notation storedGame.
Proof.
  intros Hfile Hdec.
  unfold LoadGames_with, mbind, M_bind, ReadFile, lift, modify.
  rewrite Hfile, Hdec. intros Hin.
  apply LoadGames_loop_sessions in Hin as [Hin|(sg & Hin & ->)].
  - simpl in Hin. by rewrite lookup_empty in Hin.
  - exists sg. split; [by apply range_lookup|done].
Qed.

(** A load that gets as far as the decoded file replaces the store: the
    sessions held before are dropped, and every session held afterwards
    is the reconstruction of a stored entry under its id, also when the
    load stops with an error at a stored game that does not
    reconstruct. *)
Theorem LoadGames_replaces_the_store (notation : Notation_) (data : string)
    (stored : gmap string StoredGame) (w : World) (id : string) (game : Game) :
  games_json w = Some data →
  Unmarshal_StoredGames data = Ok stored →
  games (LoadGames_with notation w).2 !! id = Some game →
  ∃ storedGame, stored !! id = Some storedGame
                ∧ game = reconstructed notation storedGame.
Proof. apply LoadGames_with_sessions. Qed.

Lemma LoadGames_with_all_good (notation : Notation_) (data : string)
    (stored : gmap string StoredGame) (w : World) :
  games_json w = Some data →
  Unmarshal_StoredGames data = Ok stored →
  (∀ id storedGame, stored !! id = Some storedGame →
     (Game_UnmarshalText (NewGame [UseNotation notation]) (PGNStr storedGame)).2 = None) →
  (LoadGames_with notation w).1 = Ok ()
  ∧ games (LoadGames_with notation w).2 = reconstructed notation <$> stored.
Proof.
  intros Hfile Hdec Hall.
  destruct (LoadGames_loop_lookup notation (range stored) (set_games (λ _, ∅) w))
    as (w' & Hloop & Hlookup).
  { apply range_NoDup. }
  { intros id sg Hin. apply (Hall id). by apply range_lookup. }
  unfold LoadGames_with, mbind, M_bind, ReadFile, lift, modify.
  rewrite Hfile, Hdec, Hloop. split; [done|]. simpl.
  apply map_eq. intros id. rewrite Hlookup, range_list_to_map, lookup_fmap.
  destruct (stored !! id); [done|]. simpl. apply lookup_empty.
Qed.

(** When every stored game reconstructs, the load succeeds and the store
    is the stored map, entry by entry reconstructed. *)
Theorem LoadGames_loads_every_entry (notation : Notation_) (data : string)
    (stored : gmap string StoredGame) (w : World) :
  games_json w = Some data →
  Unmarshal_StoredGames data = Ok stored →
  (∀ id storedGame, stored !! id = Some storedGame →
     (Game_UnmarshalText (NewGame [UseNotation notation]) (PGNStr storedGame)).2 = None) →
  (LoadGames_with notation w).1 = Ok ()
  ∧ games (LoadGames_with notation w).2 = reconstructed notation <$> stored.
Proof. apply LoadGames_with_all_good. Qed.

Lemma LoadGames_with_bad_entry (notation : Notation_) (data : string)
    (stored : gmap string StoredGame) (w : World) (id : string)
    (storedGame : StoredGame) (e : error) :
  games_json w = Some data →
  Unmarshal_StoredGames data = Ok stored →
  stored !! id = Some storedGame →
  (Game_UnmarshalText (NewGame [UseNotation notation]) (PGNStr storedGame)).2 = Some e →
  ∃ e', (LoadGames_with notation w).1 = Err e'.
Proof.
  intros Hfile Hdec Hin Hbad.
  unfold LoadGames_with, mbind, M_bind, ReadFile, lift, modify.
  rewrite Hfile, Hdec.
  apply range_lookup in Hin. revert Hin.
  generalize (set_games (λ _, ∅) w). generalize (range stored).
  intros entries. induction entries as [|[id1 sg1] entries IH]; intros w0 Hin;
    [by inversion Hin|].
  simpl. destruct (Game_UnmarshalText _ (PGNStr sg1)) as [g err] eqn:Hg.
  destruct err as [e1|]; [by eexists|].
  apply elem_of_cons in Hin as [[= -> ->]|Hin].
  - rewrite Hg in Hbad. done.
  - unfold mbind, M_bind, store_game, modify. by apply IH.
Qed.

(** And when a stored game does not reconstruct, the load returns an
    error. *)
Theorem LoadGames_fails_on_a_bad_entry (notation : Notation_) (data : string)
    (stored : gmap string StoredGame) (w : World) (id : string)
    (storedGame : StoredGame) (e : error) :
  games_json w = Some data →
  Unmarshal_StoredGames data = Ok stored →
  stored !! id = Some storedGame →
  (Game_UnmarshalText (NewGame [UseNotation notation]) (PGNStr storedGame)).2 = Some e →
  ∃ e', (LoadGames_with notation w).1 = Err e'.
Proof. apply LoadGames_with_bad_entry. Qed.

(** ** The snapshot, written and read back *)





End SnapshotFile.


Lemma SaveGames_touches_the_file_only_witness :
  games_json (SaveGames Toy.full_disk).2 = Some "".
Proof.
  apply (proj2 (proj2 (proj2 (@SaveGames_touches_the_file_only
                                Toy.engine Toy.json Toy.runtime Toy.full_disk)))
           (Toy.snapshot_of "") "g1,alice,bob,");
    vm_compute; reflexivity.
Defined.

Lemma SaveGames_fails_at_a_bad_game_or_a_failing_disk_witness :
  ∃ e, (SaveGames Toy.full_disk).1 = Err e.
Proof.
  apply (proj2 (@SaveGames_fails_at_a_bad_game_or_a_failing_disk
                  Toy.engine Toy.json Toy.runtime toy_RuntimeOk Toy.full_disk)).
  reflexivity.
Defined.

Lemma SaveGames_writes_the_whole_store_witness :
  ∃ stored data,
    Marshal (VStoredGames stored) = Ok data
    ∧ games_json (SaveGames Toy.one_game).2 = Some data
    ∧ dom stored = dom (games Toy.one_game)
    ∧ ∀ id game, games Toy.one_game !! id = Some game →
        ∃ pgn, Game_MarshalText (Game_ game) = Ok pgn
               ∧ stored !! id
                 = Some {| PGNStr := pgn; sg_WhitePlayerId := WhitePlayerId game;
                           sg_BlackPlayerId := BlackPlayerId game |}.
Proof.
  apply (@SaveGames_writes_the_whole_store Toy.engine Toy.json Toy.runtime
           toy_RuntimeOk Toy.one_game (SaveGames Toy.one_game).2).
  rewrite (surjective_pairing (SaveGames Toy.one_game)) at 1.
  f_equal; vm_compute; reflexivity.
Defined.

Lemma toy_snapshot_decodes :
  Unmarshal_StoredGames "g1,alice,bob,e2e4" = Ok (Toy.snapshot_of "e2e4").
Proof. vm_compute. reflexivity. Qed.

Lemma toy_bad_snapshot_decodes :
  Unmarshal_StoredGames "g1,alice,bob,e2e5" = Ok (Toy.snapshot_of "e2e5").
Proof. vm_compute. reflexivity. Qed.

Lemma toy_snapshot_reconstructs (id : string) (storedGame : StoredGame) :
  Toy.snapshot_of "e2e4" !! id = Some storedGame →
  (Game_UnmarshalText (NewGame [UseNotation UCINotation]) (PGNStr storedGame)).2 = None.
Proof.
  unfold Toy.snapshot_of. intros [<- <-]%lookup_singleton_Some.
  vm_compute. reflexivity.
Qed.

Lemma LoadGames_loads_every_entry_witness :
  (Broadcast.LoadGames (Toy.restarted "g1,alice,bob,e2e4")).1 = Ok ()
  ∧ games (Broadcast.LoadGames (Toy.restarted "g1,alice,bob,e2e4")).2
    = reconstructed UCINotation <$> Toy.snapshot_of "e2e4".
Proof.
  apply (@LoadGames_loads_every_entry Toy.engine Toy.json Toy.runtime toy_RuntimeOk
           UCINotation "g1,alice,bob,e2e4").
  - reflexivity.
  - apply toy_snapshot_decodes.
  - apply toy_snapshot_reconstructs.
Defined.

Lemma LoadGames_replaces_the_store_witness :
  ∃ storedGame,
    Toy.snapshot_of "e2e4" !! "g1" = Some storedGame
    ∧ reconstructed UCINotation
        {| PGNStr := "e2e4"; sg_WhitePlayerId := "alice"; sg_BlackPlayerId := "bob" |}
      = reconstructed UCINotation storedGame.
Proof.
  apply (@LoadGames_replaces_the_store Toy.engine Toy.json Toy.runtime toy_RuntimeOk
           UCINotation "g1,alice,bob,e2e4" (Toy.snapshot_of "e2e4")
           (Toy.restarted "g1,alice,bob,e2e4")).
  - reflexivity.
  - apply toy_snapshot_decodes.
  - destruct (@LoadGames_with_all_good Toy.engine Toy.json Toy.runtime toy_RuntimeOk
                UCINotation "g1,alice,bob,e2e4" (Toy.snapshot_of "e2e4")
                (Toy.restarted "g1,alice,bob,e2e4")
                eq_refl toy_snapshot_decodes toy_snapshot_reconstructs) as [_ Hgames].
    unfold Broadcast.LoadGames in *.
    rewrite Hgames, lookup_fmap. unfold Toy.snapshot_of.
    rewrite lookup_singleton_eq. reflexivity.
Defined.

Lemma LoadGames_fails_on_a_bad_entry_witness :
  ∃ e, (Broadcast.LoadGames (Toy.restarted "g1,alice,bob,e2e5")).1 = Err e.
Proof.
  apply (@LoadGames_fails_on_a_bad_entry Toy.engine Toy.json Toy.runtime toy_RuntimeOk
           UCINotation "g1,alice,bob,e2e5" (Toy.snapshot_of "e2e5")
           (Toy.restarted "g1,alice,bob,e2e5") "g1"
           {| PGNStr := "e2e5"; sg_WhitePlayerId := "alice"; sg_BlackPlayerId := "bob" |}
           "chess: failed to decode notation text").
  - reflexivity.
  - apply toy_bad_snapshot_decodes.
  - apply lookup_singleton_eq.
  - vm_compute. reflexivity.
Defined.

(** ** What a move does *)

Section Moves.
Context `{Eng : RulesEngine} `{Js : Json} `{Rt : Runtime} `{!RuntimeOk}.

Lemma bind_Ok {A C} (m : M A) (k : A → M C) (w w' : World) (a : A) :
  m w = (Ok a, w') → (m ≫= k) w = k a w'.
Proof. intros Hm. unfold mbind, M_bind. by rewrite Hm. Qed.

Lemma bind_Err {A C} (m : M A) (k : A → M C) (w w' : World) (e : error) :
  m w = (Err e, w') → (m ≫= k) w = (Err e, w').
Proof. intros Hm. unfold mbind, M_bind. by rewrite Hm. Qed.

(** The store after a move handler, whatever it returned: the store as
    it was, or the store with the named session's game replaced. *)
Lemma Broadcast_HandleMove_games_cases (wsMsg : WebsocketMessage) (client : Client)
    (w : World) :
  games (Broadcast.HandleMove wsMsg client w).2 = games w
  ∨ ∃ move game g,
      Unmarshal_MoveMessage (ws_Payload wsMsg) = Ok move
      ∧ games w !! mm_GameID move = Some game
      ∧ games (Broadcast.HandleMove wsMsg client w).2
        = <[mm_GameID move := with_chess game g]> (games w).
Proof.
  unfold Broadcast.HandleMove. rewrite bind_lift.
  destruct (Unmarshal_MoveMessage _) as [move|] eqn:Hdec; [|by left].
  unfold lookup_game. rewrite bind_gets.
  destruct (games w !! mm_GameID move) as [game|] eqn:Hgame; [|by left].
  right. exists move, game.
  destruct (Game_MoveStr (Game_ game) (mm_Move move)) as [g err]. exists g.
  split; [done|]. split; [done|].
  unfold store_game. rewrite bind_modify.
  destruct err as [e|]; [done|].
  apply (keeps_bind games SaveGames).
  - by apply keeps_SaveGames.
  - intros ?.
    by apply (keeps_after_commit_broadcast games (λ _ _ _, eq_refl) (λ _ _, eq_refl)
                (with_chess game g)).
Qed.

Lemma OpponentOnly_HandleMove_games_cases (wsMsg : WebsocketMessage) (client : Client)
    (w : World) :
  games (OpponentOnly.HandleMove wsMsg client w).2 = games w
  ∨ ∃ move game g,
      Unmarshal_MoveMessage (ws_Payload wsMsg) = Ok move
      ∧ games w !! mm_GameID move = Some game
      ∧ games (OpponentOnly.HandleMove wsMsg client w).2
        = <[mm_GameID move := with_chess game g]> (games w).
Proof.
  unfold OpponentOnly.HandleMove. rewrite bind_lift.
  destruct (Unmarshal_MoveMessage _) as [move|] eqn:Hdec; [|by left].
  unfold lookup_game. rewrite bind_gets.
  destruct (games w !! mm_GameID move) as [game|] eqn:Hgame; [|by left].
  right. exists move, game.
  destruct (OpponentOnly.find_and_move _ _ _) as [[g err] moved]. exists g.
  split; [done|]. split; [done|].
  unfold store_game. rewrite bind_modify.
  destruct err as [e|]; [done|].
  destruct moved; cbn [negb]; [|done].
  apply (keeps_bind games SaveGames).
  - by apply keeps_SaveGames.
  - intros ?.
    by apply (keeps_after_commit_opponent games (λ _ _ _, eq_refl) (λ _ _, eq_refl)
                (with_chess game g)).
Qed.

Lemma participants_after_insert (gs : gmap string Game) (gid id : string)
    (game : Game) (g : ChessGame) :
  gs !! gid = Some game →
  option_Forall2
    (λ after before, WhitePlayerId after = WhitePlayerId before
                     ∧ BlackPlayerId after = BlackPlayerId before)
    (<[gid := with_chess game g]> gs !! id) (gs !! id).
Proof.
  intros Hgame. destruct (decide (gid = id)) as [<-|Hne].
  - rewrite lookup_insert_eq, Hgame. by constructor.
  - rewrite lookup_insert_ne by done.
    destruct (gs !! id); by constructor.
Qed.

(** A move never creates or drops a session and never changes who plays
    which side: after the handler, whatever it returned, every session
    id holds a session with the participants it had.  In both variants. *)
Theorem HandleMove_keeps_sessions_and_participants (wsMsg : WebsocketMessage)
    (client : Client) (w : World) (id : string) :
  let same_players (after before : Game) :=
    WhitePlayerId after = WhitePlayerId before
    ∧ BlackPlayerId after = BlackPlayerId before in
  option_Forall2 same_players
    (games (Broadcast.HandleMove wsMsg client w).2 !! id) (games w !! id)
  ∧ option_Forall2 same_players
      (games (OpponentOnly.HandleMove wsMsg client w).2 !! id) (games w !! id).
Proof.
  intros same_players. split.
  - destruct (Broadcast_HandleMove_games_cases wsMsg client w)
      as [->|(move & game & g & _ & Hgame & ->)].
    + destruct (games w !! id); by constructor.
    + by apply participants_after_insert.
  - destruct (OpponentOnly_HandleMove_games_cases wsMsg client w)
      as [->|(move & game & g & _ & Hgame & ->)].
    + destruct (games w !! id); by constructor.
    + by apply participants_after_insert.
Qed.

(** A move envelope touches at most the session it names: every other
    session is after the handler what it was before.  In both
    variants. *)
Theorem HandleMove_touches_one_session (wsMsg : WebsocketMessage) (client : Client)
    (move : MoveMessage) (w : World) (id : string) :
  Unmarshal_MoveMessage (ws_Payload wsMsg) = Ok move →
  id ≠ mm_GameID move →
  games (Broadcast.HandleMove wsMsg client w).2 !! id = games w !! id
  ∧ games (OpponentOnly.HandleMove wsMsg client w).2 !! id = games w !! id.
Proof.
  intros Hdec Hne. split.
  - destruct (Broadcast_HandleMove_games_cases wsMsg client w)
      as [->|(move' & game & g & Hdec' & _ & ->)]; [done|].
    rewrite Hdec in Hdec'. injection Hdec' as <-. by rewrite lookup_insert_ne.
  - destruct (OpponentOnly_HandleMove_games_cases wsMsg client w)
      as [->|(move' & game & g & Hdec' & _ & ->)]; [done|].
    rewrite Hdec in Hdec'. injection Hdec' as <-. by rewrite lookup_insert_ne.
Qed.

(** When the snapshot cannot be written, a legal move is reported as an
    error and nobody is sent anything, but the move stays applied to the
    session in memory.  The file is as it was if it could not be opened;
    otherwise the failed write has truncated it to a part, possibly
    empty, of the new snapshot.  In both variants. *)
Theorem HandleMove_with_a_failing_disk (wsMsg : WebsocketMessage) (client : Client)
    (move : MoveMessage) (game : Game) (g : ChessGame) (w : World) :
  Unmarshal_MoveMessage (ws_Payload wsMsg) = Ok move →
  games w !! mm_GameID move = Some game →
  disk_fails w = true →
  let applied :=
    count_save (set_games (λ gs, <[mm_GameID move := with_chess game g]> gs) w) in
  let failed (r : result unit * World) :=
    (∃ e, r.1 = Err e)
    ∧ beside_the_file r.2 = beside_the_file applied
    ∧ file_after_failed_save (games applied) (games_json w) (games_json r.2) in
  (Game_MoveStr (Game_ game) (mm_Move move) = (g, None) →
   failed (Broadcast.HandleMove wsMsg client w))
  ∧ (OpponentOnly.find_and_move (Game_ValidMoves (Game_ game)) (mm_Move move)
       (Game_ game) = (g, None, true) →
     failed (OpponentOnly.HandleMove wsMsg client w)).
Proof.
  intros Hdec Hgame Hdisk applied failed.
  set (w1 := set_games (λ gs, <[mm_GameID move := with_chess game g]> gs) w).
  destruct (SaveGames_on_a_failing_disk w1 Hdisk) as ([e He] & Hrest & Hfile).
  assert (Hsave : SaveGames w1 = (Err e, (SaveGames w1).2)).
  { rewrite (surjective_pairing (SaveGames w1)) at 1. by rewrite He. }
  assert (Hfailed : failed (Err e, (SaveGames w1).2)).
  { split; [by exists e|]. by split. }
  split; intros Hmove.
  - assert (Broadcast.HandleMove wsMsg client w = (Err e, (SaveGames w1).2)) as ->;
      [|done].
    unfold Broadcast.HandleMove.
    rewrite bind_lift, Hdec. unfold lookup_game. rewrite bind_gets, Hgame, Hmove.
    unfold store_game. rewrite bind_modify. by apply bind_Err.
  - assert (OpponentOnly.HandleMove wsMsg client w = (Err e, (SaveGames w1).2)) as ->;
      [|done].
    unfold OpponentOnly.HandleMove.
    rewrite bind_lift, Hdec. unfold lookup_game. rewrite bind_gets, Hgame, Hmove.
    unfold store_game. rewrite bind_modify. cbn [negb]. by apply bind_Err.
Qed.

(** A legal move that leaves the game without an outcome, in the
    broadcast variant: it is applied to its session, [SaveGames] is
    called once and leaves in the file the encoded snapshot of the whole
    store as it is after the move, and then every registry entry with a
    working connection is sent the new position, a legal-move view and
    the captured pieces.  The legal-move view is the one of the mover,
    whoever receives it. *)
Theorem Broadcast_HandleMove_commits_then_broadcasts (wsMsg : WebsocketMessage)
    (client : Client) (move : MoveMessage) (game : Game) (g : ChessGame) (w : World) :
  Marshal_total →
  Unmarshal_MoveMessage (ws_Payload wsMsg) = Ok move →
  games w !! mm_GameID move = Some game →
  Game_MoveStr (Game_ game) (mm_Move move) = (g, None) →
  (∀ id other, <[mm_GameID move := with_chess game g]> (games w) !! id = Some other →
               ∃ pgn, Game_MarshalText (Game_ other) = Ok pgn) →
  disk_fails w = false →
  Game_Outcome g = NoOutcome →
  ∃ stored data position moves captured w',
    Broadcast.HandleMove wsMsg client w = (Ok (), w')
    ∧ games w' = <[mm_GameID move := with_chess game g]> (games w)
    ∧ snapshot_of_store (games w') stored
    ∧ Marshal (VStoredGames stored) = Ok data
    ∧ games_json w' = Some data
    ∧ saveCalls w' = S (saveCalls w)
    ∧ Broadcast.GenerateMoveAnswerMessage (with_chess game g) move = Ok position
    ∧ Broadcast.GeneratePossibleMovesMessage (with_chess game g) (mm_GameID move)
        (ID client) = Ok moves
    ∧ Broadcast.GenerateCapturedPiecesMessage (with_chess game g) (mm_GameID move)
      = Ok captured
    ∧ sent w'
      = sent w ++ (connectedClients w ≫= λ recipient,
                     if decide (Conn recipient ∈ broken w) then []
                     else [(Conn recipient, position); (Conn recipient, moves);
                           (Conn recipient, captured)]).
Proof.
  intros Htotal Hdec Hgame Hmove Hall Hdisk Hnone.
  set (game' := with_chess game g) in *.
  set (w1 := set_games (λ gs, <[mm_GameID move := game']> gs) w).
  destruct (SaveGames_writes_the_snapshot w1 Htotal Hall Hdisk)
    as (stored & data & Hstored & Hdata & Hsave).
  assert (∃ a, Broadcast.GenerateMoveAnswerMessage game' move = Ok a) as [a Ha]
    by (by apply encode_envelope_total).
  destruct (GeneratePossibleMovesMessage_total game' (mm_GameID move) (ID client)
              Htotal) as [b Hb].
  destruct (GenerateCapturedPiecesMessage_total game' (mm_GameID move) Htotal)
    as [c Hc].
  set (w2 := set_games_json data (count_save w1)) in *.
  destruct (broadcast_rounds (connectedClients w2) a b c w2)
    as (Hr & Hsent & _ & Hstore & _).
  set (w3 := (Broadcast.broadcast (connectedClients w2) a b c w2).2) in *.
  injection Hstore as Hgames _ Hfile _ Hcalls.
  exists stored, data, a, b, c, w3.
  split; [|split; [done|split; [by rewrite Hgames|]]].
  - unfold Broadcast.HandleMove.
    rewrite bind_lift, Hdec. unfold lookup_game. rewrite bind_gets, Hgame, Hmove.
    unfold store_game. rewrite bind_modify. fold game' w1.
    rewrite (bind_Ok _ _ _ _ _ Hsave).
    rewrite decide_False by (intros Hout; by apply Hout).
    rewrite bind_lift, Ha, bind_lift, Hb, bind_lift, Hc, bind_gets.
    rewrite (surjective_pairing (Broadcast.broadcast _ _ _ _ _)). by rewrite Hr.
  - by repeat (split; [done|]).
Qed.


(** One round of the opponent-only loop over the registry. *)
Lemma notify_opponent_cons (client : Client) (rest : list Client) (opponent : string)
    (game : Game) (move : MoveMessage) (data : string) (w : World) :
  OpponentOnly.GenerateMoveAnswerMessage game move = Ok data →
  OpponentOnly.notify_opponent (client :: rest) opponent game move w
  = OpponentOnly.notify_opponent rest opponent game move
      (if decide (ID client = opponent ∧ Conn client ∉ broken w)
       then add_sent (Conn client) data w else w).
Proof.
  intros Hdata. simpl. rewrite Hdata.
  unfold mbind, M_bind, catch, WriteMessage. simpl.
  destruct (decide (ID client = opponent)) as [Hid|Hid]; simpl.
  - destruct (decide (Conn client ∈ broken w)); simpl.
    + by rewrite decide_False by tauto.
    + by rewrite decide_True by tauto.
  - by rewrite decide_False by tauto.
Qed.

Lemma notify_opponent_rounds (clients : list Client) (opponent : string)
    (game : Game) (move : MoveMessage) (data : string) (w : World) :
  OpponentOnly.GenerateMoveAnswerMessage game move = Ok data →
  (OpponentOnly.notify_opponent clients opponent game move w).1 = Ok ()
  ∧ sent (OpponentOnly.notify_opponent clients opponent game move w).2
    = sent w ++ (clients ≫= λ recipient,
                   if decide (ID recipient = opponent ∧ Conn recipient ∉ broken w)
                   then [(Conn recipient, data)] else [])
  ∧ store_of (OpponentOnly.notify_opponent clients opponent game move w).2 = store_of w
  ∧ stdout (OpponentOnly.notify_opponent clients opponent game move w).2 = stdout w
  ∧ closed (OpponentOnly.notify_opponent clients opponent game move w).2 = closed w
  ∧ broken (OpponentOnly.notify_opponent clients opponent game move w).2 = broken w.
Proof.
  intros Hdata. revert w. induction clients as [|client rest IH]; intros w.
  - simpl. by rewrite app_nil_r.
  - rewrite (notify_opponent_cons _ _ _ _ _ data) by done. rewrite bind_cons.
    destruct (decide (ID client = opponent ∧ Conn client ∉ broken w)).
    + destruct (IH (add_sent (Conn client) data w))
        as (Hr & Hsent & Hstore & Hout & Hclosed & Hbrk).
      rewrite Hr, Hsent, Hstore, Hout, Hclosed, Hbrk. simpl.
      by rewrite <- app_assoc.
    + destruct (IH w) as (Hr & Hsent & Hstore & Hout & Hclosed & Hbrk).
      by rewrite Hr, Hsent, Hstore, Hout, Hclosed, Hbrk.
Qed.

(** The notification of the opponent-only variant never fails: in
    registry order, every entry that carries the opponent's identity and
    has a working connection is sent the move, a failed write is passed
    over in silence, and nothing else changes. *)
Theorem notify_opponent_delivery (clients : list Client) (opponent : string)
    (game : Game) (move : MoveMessage) (data : string) (w : World) :
  OpponentOnly.GenerateMoveAnswerMessage game move = Ok data →
  (OpponentOnly.notify_opponent clients opponent game move w).1 = Ok ()
  ∧ sent (OpponentOnly.notify_opponent clients opponent game move w).2
    = sent w ++ (clients ≫= λ recipient,
                   if decide (ID recipient = opponent ∧ Conn recipient ∉ broken w)
                   then [(Conn recipient, data)] else [])
  ∧ store_of (OpponentOnly.notify_opponent clients opponent game move w).2 = store_of w
  ∧ stdout (OpponentOnly.notify_opponent clients opponent game move w).2 = stdout w
  ∧ closed (OpponentOnly.notify_opponent clients opponent game move w).2 = closed w
  ∧ broken (OpponentOnly.notify_opponent clients opponent game move w).2 = broken w.
Proof. apply notify_opponent_rounds. Qed.

(** A legal move in the opponent-only variant: it is applied to its
    session, [SaveGames] is called once and leaves in the file the
    encoded snapshot of the whole store as it is after the move, and the
    move is sent to the registry entries that carry the identity of the
    other side: Black's when the mover is the White participant, White's
    for any other mover.  Nothing is sent when that identity is empty or
    "ai". *)
Theorem OpponentOnly_HandleMove_commits_then_notifies (wsMsg : WebsocketMessage)
    (client : Client) (move : MoveMessage) (game : Game) (g : ChessGame) (w : World) :
  Marshal_total →
  Unmarshal_MoveMessage (ws_Payload wsMsg) = Ok move →
  games w !! mm_GameID move = Some game →
  OpponentOnly.find_and_move (Game_ValidMoves (Game_ game)) (mm_Move move) (Game_ game)
  = (g, None, true) →
  (∀ id other, <[mm_GameID move := with_chess game g]> (games w) !! id = Some other →
               ∃ pgn, Game_MarshalText (Game_ other) = Ok pgn) →
  disk_fails w = false →
  let opponent :=
    if decide (WhitePlayerId game = ID client) then BlackPlayerId game
    else WhitePlayerId game in
  ∃ stored data answer w',
    OpponentOnly.HandleMove wsMsg client w = (Ok (), w')
    ∧ games w' = <[mm_GameID move := with_chess game g]> (games w)
    ∧ snapshot_of_store (games w') stored
    ∧ Marshal (VStoredGames stored) = Ok data
    ∧ games_json w' = Some data
    ∧ saveCalls w' = S (saveCalls w)
    ∧ OpponentOnly.GenerateMoveAnswerMessage (with_chess game g) move = Ok answer
    ∧ sent w'
      = sent w ++ (if decide (opponent = "" ∨ opponent = "ai") then []
                   else connectedClients w ≫= λ recipient,
                          if decide (ID recipient = opponent
                                     ∧ Conn recipient ∉ broken w)
                          then [(Conn recipient, answer)] else []).
Proof.
  intros Htotal Hdec Hgame Hmove Hall Hdisk opponent.
  set (game' := with_chess game g) in *.
  set (w1 := set_games (λ gs, <[mm_GameID move := game']> gs) w).
  destruct (SaveGames_writes_the_snapshot w1 Htotal Hall Hdisk)
    as (stored & data & Hstored & Hdata & Hsave).
  assert (∃ a, OpponentOnly.GenerateMoveAnswerMessage game' move = Ok a) as [a Ha]
    by (by apply encode_envelope_total).
  set (w2 := set_games_json data (count_save w1)) in *.
  assert (Hhandler : OpponentOnly.HandleMove wsMsg client w
                     = (if decide (opponent = "") then mret ()
                        else if decide (opponent = "ai") then mret ()
                        else clients ← gets connectedClients;
                             OpponentOnly.notify_opponent clients opponent game' move)
                         w2).
  { unfold OpponentOnly.HandleMove.
    rewrite bind_lift, Hdec. unfold lookup_game. rewrite bind_gets, Hgame, Hmove.
    unfold store_game. rewrite bind_modify. cbn [negb]. fold game' w1.
    by rewrite (bind_Ok _ _ _ _ _ Hsave). }
  exists stored, data, a. rewrite Hhandler.
  destruct (decide (opponent = "")) as [Hnone|Hsome].
  { exists w2. rewrite decide_True by tauto. rewrite app_nil_r.
    by repeat (split; [done|]). }
  destruct (decide (opponent = "ai")) as [Hai|Hhuman].
  { exists w2. rewrite decide_True by tauto. rewrite app_nil_r.
    by repeat (split; [done|]). }
  rewrite decide_False by tauto. rewrite bind_gets.
  destruct (notify_opponent_rounds (connectedClients w2) opponent game' move a w2 Ha)
    as (Hr & Hsent & Hstore & _).
  set (w3 := (OpponentOnly.notify_opponent (connectedClients w2) opponent game' move
                w2).2) in *.
  injection Hstore as Hgames _ Hfile _ Hcalls.
  exists w3.
  split; [|split; [done|split; [by rewrite Hgames|]]].
  - rewrite (surjective_pairing (OpponentOnly.notify_opponent _ _ _ _ _)).
    by rewrite Hr.
  - by repeat (split; [done|]).
Qed.

End Moves.

Lemma toy_MarshalText_total (gs : gmap string Game) (id : string) (other : Game) :
  gs !! id = Some other → ∃ pgn, Game_MarshalText (Game_ other) = Ok pgn.
Proof. intros _. by eexists. Qed.

Lemma HandleMove_touches_one_session_witness :
  let wsMsg := {| ws_Type := "move"; ws_Payload := "g1,w,e2e4" |} in
  let alice := {| ID := "alice"; Conn := 1 |} in
  games (Broadcast.HandleMove wsMsg alice Toy.one_game).2 !! "g2"
  = games Toy.one_game !! "g2"
  ∧ games (OpponentOnly.HandleMove wsMsg alice Toy.one_game).2 !! "g2"
    = games Toy.one_game !! "g2".
Proof.
  intros wsMsg alice.
  apply (HandleMove_touches_one_session wsMsg alice
           {| mm_GameID := "g1"; mm_Color := "w"; mm_Move := "e2e4" |}).
  - reflexivity.
  - discriminate.
Defined.

Lemma HandleMove_with_a_failing_disk_witness :
  let wsMsg := {| ws_Type := "move"; ws_Payload := "g1,w,e2e4" |} in
  let alice := {| ID := "alice"; Conn := 1 |} in
  let applied :=
    count_save
      (set_games
         (λ gs, <["g1" := with_chess Toy.fresh_game
                            (Game_MoveStr (Game_ Toy.fresh_game) "e2e4").1]> gs)
         Toy.full_disk) in
  let failed (r : result unit * World) :=
    (∃ e, r.1 = Err e)
    ∧ beside_the_file r.2 = beside_the_file applied
    ∧ file_after_failed_save (games applied) (games_json Toy.full_disk)
        (games_json r.2) in
  failed (Broadcast.HandleMove wsMsg alice Toy.full_disk)
  ∧ failed (OpponentOnly.HandleMove wsMsg alice Toy.full_disk).
Proof.
  intros wsMsg alice applied failed.
  destruct (@HandleMove_with_a_failing_disk Toy.engine Toy.json Toy.runtime
              toy_RuntimeOk wsMsg alice
              {| mm_GameID := "g1"; mm_Color := "w"; mm_Move := "e2e4" |}
              Toy.fresh_game (Game_MoveStr (Game_ Toy.fresh_game) "e2e4").1
              Toy.full_disk) as [Hbroadcast Hopponent].
  - reflexivity.
  - reflexivity.
  - reflexivity.
  - split.
    + apply Hbroadcast. vm_compute. reflexivity.
    + apply Hopponent. vm_compute. reflexivity.
Defined.

Lemma Broadcast_HandleMove_commits_then_broadcasts_witness :
  let wsMsg := {| ws_Type := "move"; ws_Payload := "g1,w,e2e4" |} in
  let move := {| mm_GameID := "g1"; mm_Color := "w"; mm_Move := "e2e4" |} in
  let alice := {| ID := "alice"; Conn := 1 |} in
  let played := with_chess Toy.fresh_game
                  (Game_MoveStr (Game_ Toy.fresh_game) "e2e4").1 in
  ∃ stored data position moves captured w',
    Broadcast.HandleMove wsMsg alice Toy.playing = (Ok (), w')
    ∧ games w' = <["g1" := played]> (games Toy.playing)
    ∧ snapshot_of_store (games w') stored
    ∧ Marshal (VStoredGames stored) = Ok data
    ∧ games_json w' = Some data
    ∧ saveCalls w' = S (saveCalls Toy.playing)
    ∧ Broadcast.GenerateMoveAnswerMessage played move = Ok position
    ∧ Broadcast.GeneratePossibleMovesMessage played "g1" "alice" = Ok moves
    ∧ Broadcast.GenerateCapturedPiecesMessage played "g1" = Ok captured
    ∧ sent w'
      = sent Toy.playing
        ++ (connectedClients Toy.playing ≫= λ recipient,
              if decide (Conn recipient ∈ broken Toy.playing) then []
              else [(Conn recipient, position); (Conn recipient, moves);
                    (Conn recipient, captured)]).
Proof.
  intros wsMsg move alice played.
  apply (@Broadcast_HandleMove_commits_then_broadcasts Toy.engine Toy.json Toy.runtime
           toy_RuntimeOk wsMsg alice move Toy.fresh_game
           (Game_MoveStr (Game_ Toy.fresh_game) "e2e4").1 Toy.playing).
  - apply toy_Marshal_total.
  - reflexivity.
  - reflexivity.
  - vm_compute. reflexivity.
  - apply toy_MarshalText_total.
  - reflexivity.
  - vm_compute. reflexivity.
Defined.


Lemma notify_opponent_delivery_witness :
  let move := {| mm_GameID := "g1"; mm_Color := "w"; mm_Move := "e2e4" |} in
  let clients := [ {| ID := "alice"; Conn := 1 |}; {| ID := "bob"; Conn := 2 |} ] in
  let result := OpponentOnly.notify_opponent clients "bob" Toy.fresh_game move
                  Toy.playing in
  result.1 = Ok ()
  ∧ sent result.2
    = sent Toy.playing
      ++ (clients ≫= λ recipient,
            if decide (ID recipient = "bob" ∧ Conn recipient ∉ broken Toy.playing)
            then [(Conn recipient, "move|g1,e2e4")] else [])
  ∧ store_of result.2 = store_of Toy.playing
  ∧ stdout result.2 = stdout Toy.playing
  ∧ closed result.2 = closed Toy.playing
  ∧ broken result.2 = broken Toy.playing.
Proof.
  intros move clients result.
  apply (notify_opponent_delivery clients "bob" Toy.fresh_game move
           "move|g1,e2e4" Toy.playing).
  vm_compute. reflexivity.
Defined.

Lemma OpponentOnly_HandleMove_commits_then_notifies_witness :
  let wsMsg := {| ws_Type := "move"; ws_Payload := "g1,w,e2e4" |} in
  let move := {| mm_GameID := "g1"; mm_Color := "w"; mm_Move := "e2e4" |} in
  let alice := {| ID := "alice"; Conn := 1 |} in
  let played := with_chess Toy.fresh_game
                  (Game_MoveStr (Game_ Toy.fresh_game) "e2e4").1 in
  let opponent :=
    if decide (WhitePlayerId Toy.fresh_game = ID alice)
    then BlackPlayerId Toy.fresh_game else WhitePlayerId Toy.fresh_game in
  ∃ stored data answer w',
    OpponentOnly.HandleMove wsMsg alice Toy.playing = (Ok (), w')
    ∧ games w' = <["g1" := played]> (games Toy.playing)
    ∧ snapshot_of_store (games w') stored
    ∧ Marshal (VStoredGames stored) = Ok data
    ∧ games_json w' = Some data
    ∧ saveCalls w' = S (saveCalls Toy.playing)
    ∧ OpponentOnly.GenerateMoveAnswerMessage played move = Ok answer
    ∧ sent w'
      = sent Toy.playing
        ++ (if decide (opponent = "" ∨ opponent = "ai") then []
            else connectedClients Toy.playing ≫= λ recipient,
                   if decide (ID recipient = opponent
                              ∧ Conn recipient ∉ broken Toy.playing)
                   then [(Conn recipient, answer)] else []).
Proof.
  intros wsMsg move alice played opponent.
  apply (@OpponentOnly_HandleMove_commits_then_notifies Toy.engine Toy.json Toy.runtime
           toy_RuntimeOk wsMsg alice move Toy.fresh_game
           (Game_MoveStr (Game_ Toy.fresh_game) "e2e4").1 Toy.playing).
  - apply toy_Marshal_total.
  - reflexivity.
  - reflexivity.
  - vm_compute. reflexivity.
  - apply toy_MarshalText_total.
  - reflexivity.
Defined.

(** ** Session creation *)

Section Creation.
Context `{Eng : RulesEngine} `{Js : Json} `{Rt : Runtime} `{!RuntimeOk}.

(** With a preferred colour the assignment is fixed and the random
    source plays no part: "w" makes player1 White, "b" makes player1
    Black. *)
Theorem PostGame_preferred_colour (notation : Notation_) (IntN : Z → Z) (id : string)
    (request : CreateGameRequest) (fen : GameOption) (w : World) :
  FEN startingFEN = Ok fen →
  (PreferredColor request = "w" →
   games (PostGame_with notation IntN id (Ok request) w).2 !! id
   = Some {| WhitePlayerId := Player1 request; BlackPlayerId := Player2 request;
             Game_ := NewGame [fen; UseNotation notation] |})
  ∧ (PreferredColor request = "b" →
     games (PostGame_with notation IntN id (Ok request) w).2 !! id
     = Some {| WhitePlayerId := Player2 request; BlackPlayerId := Player1 request;
               Game_ := NewGame [fen; UseNotation notation] |}).
Proof.
  intros Hfen. unfold PostGame_with. rewrite Hfen.
  split; intros Hcolour; unfold assign_colors; rewrite Hcolour.
  - rewrite decide_True by done.
    match goal with |- context [SaveGames ?w0] =>
      pose proof (SaveGames_games w0) as Hsave;
      destruct (SaveGames w0) as [[[]|e] w1] end;
      simpl in *; rewrite Hsave; apply lookup_insert_eq.
  - rewrite decide_False, decide_True by done.
    match goal with |- context [SaveGames ?w0] =>
      pose proof (SaveGames_games w0) as Hsave;
      destruct (SaveGames w0) as [[[]|e] w1] end;
      simpl in *; rewrite Hsave; apply lookup_insert_eq.
Qed.

(** When the snapshot cannot be written, session creation answers 500,
    but the new session stays in the store.  The file is as it was if it
    could not be opened; otherwise the failed write has truncated it to
    a part, possibly empty, of the new snapshot. *)
Theorem PostGame_with_a_failing_disk (notation : Notation_) (IntN : Z → Z) (id : string)
    (request : CreateGameRequest) (fen : GameOption) (w : World) :
  FEN startingFEN = Ok fen →
  disk_fails w = true →
  let created :=
    count_save
      (set_games
         (λ gs, <[id := assign_colors IntN request
                          (NewGame [fen; UseNotation notation])]> gs) w) in
  (PostGame_with notation IntN id (Ok request) w).1 = (500, "Internal server error")
  ∧ beside_the_file (PostGame_with notation IntN id (Ok request) w).2
    = beside_the_file created
  ∧ file_after_failed_save (games created) (games_json w)
      (games_json (PostGame_with notation IntN id (Ok request) w).2).
Proof.
  intros Hfen Hdisk created. unfold PostGame_with. rewrite Hfen.
  match goal with |- context [SaveGames ?w0] =>
    destruct (SaveGames_on_a_failing_disk w0 Hdisk) as ([e He] & Hrest & Hfile);
    destruct (SaveGames w0) as [r w1] end.
  simpl in He. subst r. by simpl.
Qed.


End Creation.

Lemma PostGame_preferred_colour_witness :
  let request := {| Player1 := "A"; Player2 := "B"; PreferredColor := "b" |} in
  games (Broadcast.PostGame (λ _, 0) "g9" (Ok request) Toy.empty_world).2 !! "g9"
  = Some {| WhitePlayerId := "B"; BlackPlayerId := "A";
            Game_ := NewGame [Toy.OptPosition Toy.starting_position;
                              UseNotation UCINotation] |}.
Proof.
  intros request.
  apply (proj2 (@PostGame_preferred_colour Toy.engine Toy.json Toy.runtime
                  UCINotation (λ _, 0) "g9" request
                  (Toy.OptPosition Toy.starting_position) Toy.empty_world eq_refl)).
  reflexivity.
Defined.

Lemma PostGame_with_a_failing_disk_witness :
  let request := {| Player1 := "A"; Player2 := "B"; PreferredColor := "w" |} in
  let created :=
    count_save
      (set_games
         (λ gs, <["g9" := assign_colors (λ _, 0) request
                            (NewGame [Toy.OptPosition Toy.starting_position;
                                      UseNotation UCINotation])]> gs)
         Toy.full_disk) in
  (Broadcast.PostGame (λ _, 0) "g9" (Ok request) Toy.full_disk).1
  = (500, "Internal server error")
  ∧ beside_the_file (Broadcast.PostGame (λ _, 0) "g9" (Ok request) Toy.full_disk).2
    = beside_the_file created
  ∧ file_after_failed_save (games created) (games_json Toy.full_disk)
      (games_json (Broadcast.PostGame (λ _, 0) "g9" (Ok request) Toy.full_disk).2).
Proof.
  intros request created.
  apply (@PostGame_with_a_failing_disk Toy.engine Toy.json Toy.runtime toy_RuntimeOk
           UCINotation (λ _, 0) "g9" request (Toy.OptPosition Toy.starting_position)
           Toy.full_disk).
  - reflexivity.
  - reflexivity.
Defined.


(** ** The registry and the connection loop *)

Section Registry.
Context `{Eng : RulesEngine} `{Js : Json} `{Rt : Runtime}.

(** The teardown cuts the first entry of the identity out of the
    registry and leaves the order of the others; a registry without the
    identity is left as it is. *)
Theorem remove_first_by_ID_cuts_the_first (id : string) (clients : list Client) :
  (id ∉ ID <$> clients → remove_first_by_ID id clients = clients)
  ∧ (∀ before client after,
       clients = before ++ client :: after →
       id ∉ ID <$> before →
       ID client = id →
       remove_first_by_ID id clients = before ++ after).
Proof.
  split.
  - induction clients as [|client rest IH]; simpl; [done|].
    intros Hnot. apply not_elem_of_cons in Hnot as [Hne Hnot].
    rewrite decide_False by done. by rewrite IH.
  - intros before client after -> Hnot Hid.
    induction before as [|first before IH]; simpl.
    + by rewrite decide_True.
    + rewrite fmap_cons in Hnot. apply not_elem_of_cons in Hnot as [Hne Hnot].
      rewrite decide_False by done. by rewrite IH.
Qed.

Lemma remove_first_by_ID_app (id : string) (clients more : list Client) :
  id ∈ ID <$> clients →
  remove_first_by_ID id (clients ++ more) = remove_first_by_ID id clients ++ more.
Proof.
  induction clients as [|client rest IH]; simpl; [by intros ?%elem_of_nil|].
  intros Hin. case_decide; [done|]. simpl. f_equal. apply IH.
  apply elem_of_cons in Hin as [Heq|Hin]; [congruence|done].
Qed.

(** A reconnect under an identity that still has an entry: when the new
    connection fails, the teardown of the opponent-only variant closes
    it but cuts the older entry out of the registry, so the registry
    keeps pointing at the closed connection. *)
Theorem OpponentOnly_teardown_leaves_a_stale_entry (conn : nat) (id : string)
    (e : error) (rest : list (result string)) (w w1 : World) :
  id ∈ ID <$> connectedClients w →
  WsHandler_hello {| ID := id; Conn := conn |} w = (Ok (), w1) →
  ∃ w2, OpponentOnly.WsHandler (Ok conn) id (Err e :: rest) w = (Returned None, w2)
        ∧ connectedClients w2
          = remove_first_by_ID id (connectedClients w) ++ [{| ID := id; Conn := conn |}]
        ∧ closed w2 = closed w ++ [conn].
Proof.
  intros Hin Hhello.
  destruct (OpponentOnly_teardown_on_read_error conn id [] e rest w w1 Hhello)
    as (w2 & Hrun & Hclients & Hclosed); [done|].
  exists w2. split; [done|]. split; [|done].
  by rewrite Hclients, remove_first_by_ID_app.
Qed.

(** A connection whose greeting cannot be written is registered all the
    same: the handler returns the error before its teardown is in place,
    so the entry stays in the registry and the connection is not closed.
    In both variants, whatever the connection would deliver. *)
Theorem WsHandler_failed_greeting_leaves_the_entry (conn : nat) (id : string)
    (reads : list (result string)) (w : World) :
  Marshal_total →
  conn ∈ broken w →
  ∃ e w',
    Broadcast.WsHandler (Ok conn) id reads w = (Returned (Some e), w')
    ∧ OpponentOnly.WsHandler (Ok conn) id reads w = (Returned (Some e), w')
    ∧ connectedClients w' = connectedClients w ++ [{| ID := id; Conn := conn |}]
    ∧ closed w' = closed w
    ∧ sent w' = sent w.
Proof.
  intros Htotal Hbroken.
  destruct (encode_envelope_total "hello" (VHello {| hm_ID := id |}) Htotal)
    as [data Hdata].
  exists "websocket: write failed",
         (set_connectedClients (λ cs, cs ++ [{| ID := id; Conn := conn |}]) w).
  assert (Hhello : WsHandler_hello {| ID := id; Conn := conn |} w
                   = (Err "websocket: write failed",
                      set_connectedClients
                        (λ cs, cs ++ [{| ID := id; Conn := conn |}]) w)).
  { unfold WsHandler_hello, register. rewrite bind_modify. simpl.
    rewrite bind_lift, Hdata. unfold WriteMessage. simpl.
    by rewrite decide_True by done. }
  unfold Broadcast.WsHandler, OpponentOnly.WsHandler. rewrite Hhello. done.
Qed.

(** What the greeting leaves of the registry. *)
Lemma hello_registry (conn : nat) (id : string) (w w1 : World) :
  WsHandler_hello {| ID := id; Conn := conn |} w = (Ok (), w1) →
  registry_of w1 = (connectedClients w ++ [{| ID := id; Conn := conn |}], closed w).
Proof.
  intros Hhello.
  pose proof (WsHandler_hello_registry {| ID := id; Conn := conn |} w) as Hw1.
  by rewrite Hhello in Hw1.
Qed.

(** C6, where the code departs from it.  A connection that has been
    greeted is torn down by a failed read and by nothing else, and what
    the teardown cuts out of the registry is the first entry of the
    connection's identity, which is its own only if the identity had no
    entry before.  While the reads succeed and decode, a [leave]
    envelope among them or not, the handler stays in its loop with its
    entry in the registry and nothing closed.  At the first failed read
    the handler ends, whatever the handlers of the envelopes returned:
    the opponent-only variant returns, the broadcast variant is unwound
    by the panic of the repeated read; the deferred function has run
    once, closing the connection and cutting one entry.  Under an
    identity that had an entry already, the entry cut is the older one
    and the connection's own entry stays. *)
Theorem C6_teardown_needs_a_failed_read_and_cuts_by_identity
    (conn : nat) (id : string) (envelopes : list (result string)) (e : error)
    (rest : list (result string)) (w w1 : World) :
  WsHandler_hello {| ID := id; Conn := conn |} w = (Ok (), w1) →
  Forall (λ r, ∃ msg wsMsg, r = Ok msg ∧ Unmarshal_WebsocketMessage msg = Ok wsMsg)
         envelopes →
  let own := {| ID := id; Conn := conn |} in
  let registered := connectedClients w ++ [own] in
  (∃ wA wB,
     Broadcast.WsHandler (Ok conn) id envelopes w = (Waiting, wA)
     ∧ OpponentOnly.WsHandler (Ok conn) id envelopes w = (Waiting, wB)
     ∧ registry_of wA = (registered, closed w)
     ∧ registry_of wB = (registered, closed w))
  ∧ (∃ wA wB,
       Broadcast.WsHandler (Ok conn) id (envelopes ++ Err e :: rest) w
       = (Panicked repeated_read, wA)
       ∧ OpponentOnly.WsHandler (Ok conn) id (envelopes ++ Err e :: rest) w
         = (Returned None, wB)
       ∧ registry_of wA = (remove_first_by_ID id registered, closed w ++ [conn])
       ∧ registry_of wB = (remove_first_by_ID id registered, closed w ++ [conn]))
  ∧ S (length (remove_first_by_ID id registered)) = length registered
  ∧ (id ∉ ID <$> connectedClients w →
     remove_first_by_ID id registered = connectedClients w)
  ∧ (id ∈ ID <$> connectedClients w →
     remove_first_by_ID id registered
     = remove_first_by_ID id (connectedClients w) ++ [own]).
Proof.
  intros Hhello Hall own registered.
  pose proof (hello_registry conn id w w1 Hhello) as Hw1. fold own registered in Hw1.
  assert (Hreads : Forall (λ r : result string, ∃ msg, r = Ok msg) envelopes).
  { eapply Forall_impl; [exact Hall|]. intros r (msg & _ & -> & _). by exists msg. }
  split; [|split; [|split; [|split]]].
  - unfold Broadcast.WsHandler, OpponentOnly.WsHandler. rewrite Hhello. fold own.
    pose proof (Broadcast_loop_waits own envelopes w1 Hreads) as HflagA.
    pose proof (Broadcast_loop_registry own envelopes w1) as HregA.
    pose proof (OpponentOnly_loop_waits own envelopes w1 Hall) as HflagB.
    pose proof (OpponentOnly_loop_registry own envelopes w1) as HregB.
    destruct (Broadcast.WsHandler_loop own envelopes w1) as [flagA wA].
    destruct (OpponentOnly.WsHandler_loop own envelopes w1) as [flagB wB].
    simpl in HflagA, HregA, HflagB, HregB. subst flagA flagB.
    exists wA, wB. by rewrite HregA, HregB.
  - unfold Broadcast.WsHandler, OpponentOnly.WsHandler. rewrite Hhello. fold own.
    pose proof (Broadcast_loop_unwinds_on_read_error own envelopes e rest w1 Hreads)
      as HflagA.
    pose proof (Broadcast_loop_registry own (envelopes ++ Err e :: rest) w1) as HregA.
    destruct (OpponentOnly_loop_leaves_on_read_error own envelopes e rest w1 Hall)
      as [HflagB HregB].
    destruct (Broadcast.WsHandler_loop own _ w1) as [flagA wA].
    destruct (OpponentOnly.WsHandler_loop own _ w1) as [flagB wB].
    simpl in HflagA, HregA, HflagB, HregB. subst flagA flagB.
    rewrite Hw1 in HregA, HregB.
    injection HregA as HclientsA HclosedA. injection HregB as HclientsB HclosedB.
    eexists _, _. split; [reflexivity|]. split; [reflexivity|].
    unfold registry_of, deferred_cleanup, mbind, M_bind, modify. simpl.
    by rewrite HclientsA, HclosedA, HclientsB, HclosedB.
  - apply remove_first_by_ID_length. unfold registered.
    rewrite fmap_app. apply elem_of_app. right. simpl. by left.
  - unfold registered. generalize (connectedClients w). intros clients Hnot.
    induction clients as [|client clients IH]; simpl.
    + by rewrite decide_True.
    + rewrite fmap_cons in Hnot. apply not_elem_of_cons in Hnot as [Hne Hnot].
      rewrite decide_False by done. by rewrite IH.
  - intros Hin. by apply remove_first_by_ID_app.
Qed.

(** No handler registers, unregisters or closes a connection, or mends
    or breaks a transport: whatever envelope is dispatched, the
    registry, the closed connections and the broken transports are as
    before.  In both variants. *)
Theorem dispatch_leaves_the_connections (wsMsg : WebsocketMessage) (newClient : Client)
    (w : World) :
  let connections (w : World) := (connectedClients w, closed w, broken w) in
  connections (Broadcast.dispatch wsMsg newClient w) = connections w
  ∧ connections (OpponentOnly.dispatch wsMsg newClient w) = connections w.
Proof.
  intros connections. split.
  - by apply (keeps_Broadcast_dispatch connections).
  - by apply (keeps_OpponentOnly_dispatch connections).
Qed.

End Registry.

Lemma C6_witness :
  let w := (OpponentOnly.WsHandler (Ok 1%nat) "alice" [] Toy.one_game).2 in
  let own := {| ID := "alice"; Conn := 2 |} in
  let registered := connectedClients w ++ [own] in
  (∃ wA wB,
     Broadcast.WsHandler (Ok 2%nat) "alice" [Ok "leave|"] w = (Waiting, wA)
     ∧ OpponentOnly.WsHandler (Ok 2%nat) "alice" [Ok "leave|"] w = (Waiting, wB)
     ∧ registry_of wA = (registered, closed w)
     ∧ registry_of wB = (registered, closed w))
  ∧ (∃ wA wB,
       Broadcast.WsHandler (Ok 2%nat) "alice" ([Ok "leave|"] ++ [Err "EOF"]) w
       = (Panicked repeated_read, wA)
       ∧ OpponentOnly.WsHandler (Ok 2%nat) "alice" ([Ok "leave|"] ++ [Err "EOF"]) w
         = (Returned None, wB)
       ∧ registry_of wA = (remove_first_by_ID "alice" registered, closed w ++ [2%nat])
       ∧ registry_of wB = (remove_first_by_ID "alice" registered, closed w ++ [2%nat]))
  ∧ S (length (remove_first_by_ID "alice" registered)) = length registered
  ∧ ("alice" ∉ ID <$> connectedClients w →
     remove_first_by_ID "alice" registered = connectedClients w)
  ∧ ("alice" ∈ ID <$> connectedClients w →
     remove_first_by_ID "alice" registered
     = remove_first_by_ID "alice" (connectedClients w) ++ [own]).
Proof.
  intros w own registered.
  apply (C6_teardown_needs_a_failed_read_and_cuts_by_identity 2 "alice"
           [Ok "leave|"] "EOF" [] w
           (WsHandler_hello {| ID := "alice"; Conn := 2 |} w).2).
  - rewrite (surjective_pairing (WsHandler_hello _ w)) at 1.
    f_equal; vm_compute; reflexivity.
  - constructor; [|constructor].
    exists "leave|", {| ws_Type := "leave"; ws_Payload := "" |}.
    split; reflexivity.
Defined.

(** The second connection of alice: its [leave] ends nothing, and when
    its read fails the registry loses the entry of her first connection,
    which is still open, and keeps the entry of the one that has just
    been closed.  In both variants. *)
Example second_connection_teardown :
  let w := (OpponentOnly.WsHandler (Ok 1%nat) "alice" [] Toy.one_game).2 in
  let alice1 := {| ID := "alice"; Conn := 1 |} in
  let alice2 := {| ID := "alice"; Conn := 2 |} in
  let leave := [Ok "leave|"] in
  let failure := [Ok "leave|"; Err "EOF"] in
  let broadcast reads := Broadcast.WsHandler (Ok 2%nat) "alice" reads w in
  let opponent reads := OpponentOnly.WsHandler (Ok 2%nat) "alice" reads w in
  ((broadcast leave).1 = Waiting
   ∧ registry_of (broadcast leave).2 = ([alice1; alice2], []))
  ∧ ((opponent leave).1 = Waiting
     ∧ registry_of (opponent leave).2 = ([alice1; alice2], []))
  ∧ ((broadcast failure).1 = Panicked repeated_read
     ∧ registry_of (broadcast failure).2 = ([alice2], [2%nat]))
  ∧ ((opponent failure).1 = Returned None
     ∧ registry_of (opponent failure).2 = ([alice2], [2%nat])).
Proof. repeat split; vm_compute; reflexivity. Qed.

Lemma remove_first_by_ID_cuts_the_first_witness :
  let alice1 := {| ID := "alice"; Conn := 1 |} in
  let alice2 := {| ID := "alice"; Conn := 2 |} in
  let bob := {| ID := "bob"; Conn := 3 |} in
  remove_first_by_ID "alice" [bob; alice1; alice2] = [bob] ++ [alice2].
Proof.
  intros alice1 alice2 bob.
  apply (proj2 (remove_first_by_ID_cuts_the_first "alice" [bob; alice1; alice2])
           [bob] alice1 [alice2]).
  - reflexivity.
  - apply (bool_decide_unpack _). vm_compute. exact I.
  - reflexivity.
Defined.

Lemma OpponentOnly_teardown_leaves_a_stale_entry_witness :
  let w := (OpponentOnly.WsHandler (Ok 1%nat) "alice" [] Toy.one_game).2 in
  ∃ w2, OpponentOnly.WsHandler (Ok 2%nat) "alice" [Err "EOF"] w = (Returned None, w2)
        ∧ connectedClients w2
          = remove_first_by_ID "alice" (connectedClients w)
            ++ [{| ID := "alice"; Conn := 2 |}]
        ∧ closed w2 = closed w ++ [2%nat].
Proof.
  intros w.
  apply (OpponentOnly_teardown_leaves_a_stale_entry 2 "alice" "EOF" [] w
           (WsHandler_hello {| ID := "alice"; Conn := 2 |} w).2).
  - apply (bool_decide_unpack _). vm_compute. exact I.
  - rewrite (surjective_pairing (WsHandler_hello _ w)) at 1.
    f_equal; vm_compute; reflexivity.
Defined.

Lemma WsHandler_failed_greeting_leaves_the_entry_witness :
  ∃ e w',
    Broadcast.WsHandler (Ok 1%nat) "alice" [Ok "join|g1"] Toy.broken_transport
    = (Returned (Some e), w')
    ∧ OpponentOnly.WsHandler (Ok 1%nat) "alice" [Ok "join|g1"] Toy.broken_transport
      = (Returned (Some e), w')
    ∧ connectedClients w'
      = connectedClients Toy.broken_transport ++ [{| ID := "alice"; Conn := 1 |}]
    ∧ closed w' = closed Toy.broken_transport
    ∧ sent w' = sent Toy.broken_transport.
Proof.
  apply (WsHandler_failed_greeting_leaves_the_entry 1 "alice" [Ok "join|g1"]
           Toy.broken_transport).
  - apply toy_Marshal_total.
  - apply (bool_decide_unpack _). vm_compute. exact I.
Defined.

(** ** The scan of the valid moves *)

(** The scan of the opponent-only [HandleMove] applies the first valid
    move whose notation is the submitted string and tries no later one:
    the game and the error are those of the engine's [Move] on that
    move, and [moved] is set exactly when [Move] reported no error. *)
Theorem find_and_move_applies_the_first_match `{RulesEngine}
    (before after : list ChessMove) (m : ChessMove) (submitted : string)
    (g : ChessGame) :
  submitted ∉ Move_String <$> before →
  Move_String m = submitted →
  OpponentOnly.find_and_move (before ++ m :: after) submitted g
  = ((Game_Move g m).1, (Game_Move g m).2, bool_decide ((Game_Move g m).2 = None)).
Proof.
  intros Hnot Hm. induction before as [|first before IH]; simpl.
  - rewrite decide_True by done.
    by destruct (Game_Move g m) as [g' [e|]].
  - rewrite fmap_cons in Hnot. apply not_elem_of_cons in Hnot as [Hne Hnot].
    rewrite decide_False by done. by apply IH.
Qed.

Lemma find_and_move_applies_the_first_match_witness :
  let m := {| Toy.s1 := 8; Toy.s2 := 16 |} in
  OpponentOnly.find_and_move ([] ++ m :: [ {| Toy.s1 := 8; Toy.s2 := 24 |} ]) "a2a3"
    (Game_ Toy.fresh_game)
  = ((Game_Move (Game_ Toy.fresh_game) m).1, (Game_Move (Game_ Toy.fresh_game) m).2,
     bool_decide ((Game_Move (Game_ Toy.fresh_game) m).2 = None)).
Proof.
  intros m.
  apply (@find_and_move_applies_the_first_match Toy.engine [] _ m "a2a3"
           (Game_ Toy.fresh_game)).
  - apply not_elem_of_nil.
  - reflexivity.
Defined.
